(** * wsm (Web Sessions Manager): a shallow embedding of the session store,
      the session manager and the identifier codec, with the properties of
      the natural-language specification settled against them.

    Layout, following the Go packages of the repository:
    - [GoRuntime]: what the embedded code needs of the Go language and its
      standard library (int64 arithmetic, maps that may be nil, panics,
      non-reentrant mutexes, [defer]);
    - [net_url], [base64], [strings]: the standard-library functions the
      manager calls, written after their Go implementations;
    - [abstract_definition]: the [Session] and [StorageMedia] interfaces;
    - [memory_storage]: the in-memory store of [memory_storage.go];
    - [wsm_backup]: the session manager. *)

From Stdlib Require Import ZArith Ascii String List Lia SpecFloat.
From stdpp Require Import base option list gmap fin_maps strings.

Local Open Scope Z_scope.

(** ** The Go runtime, as far as the embedded code uses it *)

Module GoRuntime.

(** Go's [int64]: arithmetic wraps around silently. *)
Definition wrap64 (z : Z) : Z := (z + 2 ^ 63) `mod` 2 ^ 64 - 2 ^ 63.

Definition int64_add (a b : Z) : Z := wrap64 (a + b).
Definition int64_sub (a b : Z) : Z := wrap64 (a - b).

(** The three ways a Go call can end: it returns a value in a new state; it
    panics (the deferred calls have run, the state they left is kept for a
    caller that recovers); or it blocks for ever on a mutex that is held. *)
Inductive outcome (S A : Type) : Type :=
| Returns (a : A) (s : S)
| Panics (msg : string) (s : S)
| Blocks.
Arguments Returns {S A} a s.
Arguments Panics {S A} msg s.
Arguments Blocks {S A}.

Definition M (S A : Type) : Type := S → outcome S A.

Definition ret {S A} (a : A) : M S A := λ s, Returns a s.

Definition bind {S A B} (m : M S A) (k : A → M S B) : M S B := λ s,
  match m s with
  | Returns a s' => k a s'
  | Panics msg s' => Panics msg s'
  | Blocks => Blocks
  end.

Definition panic {S A} (msg : string) : M S A := λ s, Panics msg s.

Definition get {S} : M S S := λ s, Returns s s.
Definition modify {S} (f : S → S) : M S unit := λ s, Returns tt (f s).

(** [defer cleanup; body]: [cleanup] runs when [body] returns and also when it
    panics; a body that blocks never reaches it. *)
Definition defer {S A} (cleanup : M S unit) (body : M S A) : M S A := λ s,
  match body s with
  | Returns a s' =>
      match cleanup s' with
      | Returns _ s'' => Returns a s''
      | Panics msg s'' => Panics msg s''
      | Blocks => Blocks
      end
  | Panics msg s' =>
      match cleanup s' with
      | Returns _ s'' => Panics msg s''
      | Panics msg' s'' => Panics msg' s''
      | Blocks => Blocks
      end
  | Blocks => Blocks
  end.

(** Running a computation of a component inside a larger state. *)
Definition zoom {S T A} (proj : S → T) (upd : T → S → S) (m : M T A) : M S A :=
  λ s,
  match m (proj s) with
  | Returns a t => Returns a (upd t s)
  | Panics msg t => Panics msg (upd t s)
  | Blocks => Blocks
  end.

Fixpoint forM_ {S A} (l : list A) (f : A → M S unit) : M S unit :=
  match l with
  | [] => ret tt
  | x :: l' => bind (f x) (λ _, forM_ l' f)
  end.

(** [sync.Mutex]: one bit. [Lock] on a held mutex blocks the caller; the mutex
    is not reentrant, so a caller that already holds it blocks for ever.
    [Unlock] of a mutex that is not held is a fatal runtime error. *)
Definition Mutex : Type := bool.

Definition Mutex_Lock : M Mutex unit := λ held,
  if held then Blocks else Returns tt true.

Definition Mutex_Unlock : M Mutex unit := λ held,
  if held then Returns tt false
  else Panics "sync: unlock of unlocked mutex" held.

(** Go maps. The zero value of a map type is the nil map ([None]): reading it
    gives the zero value, [delete] does nothing, ranging over it visits
    nothing, and writing to it panics. *)
Definition gomap (K V : Type) `{Countable K} : Type := option (gmap K V).

Definition gomap_lookup {K V} `{Countable K} (m : gomap K V) (k : K) : option V :=
  match m with
  | None => None
  | Some m => m !! k
  end.

Definition gomap_store {K V} `{Countable K}
    (m : gomap K V) (k : K) (v : V) : option (gomap K V) :=
  match m with
  | None => None
  | Some m => Some (Some (<[k := v]> m))
  end.

Definition gomap_delete {K V} `{Countable K} (m : gomap K V) (k : K) : gomap K V :=
  match m with
  | None => None
  | Some m => Some (delete k m)
  end.

Definition gomap_entries {K V} `{Countable K} (m : gomap K V) : list (K * V) :=
  match m with
  | None => []
  | Some m => map_to_list m
  end.

Definition gomap_len {K V} `{Countable K} (m : gomap K V) : nat :=
  match m with
  | None => 0%nat
  | Some m => size m
  end.

Definition nil_map_write : string := "assignment to entry in nil map".
Definition nil_deref : string :=
  "runtime error: invalid memory address or nil pointer dereference".

(** A value of type [interface{}], by the dynamic types that behave
    differently as a map key. nil, booleans, integers ([int]) and strings
    can be hashed and are equal to themselves. A [float64] can be hashed, but
    NaN is not equal to itself and the two zeros are equal to each other. A
    value of a slice, map or function type cannot be hashed; [ty] is the name
    of its dynamic type. [AOther ty v] is a value of any other comparable
    type (a sized integer, a pointer, a channel, a struct or array of such)
    that is equal to itself, given by the name of its dynamic type and an
    encoding of the value: two such keys are the same key when type and value
    agree. A composite key that holds a NaN is never found, as a NaN is, and
    one that holds a value of an unhashable dynamic type panics as such a
    value does. *)
Inductive any : Type :=
| ANil
| ABool (b : bool)
| AInt (z : Z)
| AString (s : string)
| AFloat64 (f : spec_float)
| AUnhashable (ty : string)
| AOther (ty : string) (v : N).

#[global] Instance spec_float_eq_dec : EqDecision spec_float.
Proof. solve_decision. Defined.

#[global] Instance spec_float_countable : Countable spec_float.
Proof.
  refine (inj_countable'
    (λ f, match f with
          | S754_zero sg => inl sg
          | S754_infinity sg => inr (inl sg)
          | S754_nan => inr (inr (inl ()))
          | S754_finite sg m e => inr (inr (inr (sg, m, e)))
          end)
    (λ x, match x with
          | inl sg => S754_zero sg
          | inr (inl sg) => S754_infinity sg
          | inr (inr (inl _)) => S754_nan
          | inr (inr (inr (sg, m, e))) => S754_finite sg m e
          end) _).
  by intros [].
Defined.

#[global] Instance any_eq_dec : EqDecision any.
Proof. solve_decision. Defined.

#[global] Instance any_countable : Countable any.
Proof.
  refine (inj_countable'
    (λ a, match a with
          | ANil => inl ()
          | ABool b => inr (inl b)
          | AInt z => inr (inr (inl z))
          | AString s => inr (inr (inr (inl s)))
          | AFloat64 f => inr (inr (inr (inr (inl f))))
          | AUnhashable ty => inr (inr (inr (inr (inr (inl ty)))))
          | AOther ty v => inr (inr (inr (inr (inr (inr (ty, v))))))
          end)
    (λ x, match x with
          | inl _ => ANil
          | inr (inl b) => ABool b
          | inr (inr (inl z)) => AInt z
          | inr (inr (inr (inl s))) => AString s
          | inr (inr (inr (inr (inl f)))) => AFloat64 f
          | inr (inr (inr (inr (inr (inl ty))))) => AUnhashable ty
          | inr (inr (inr (inr (inr (inr (ty, v)))))) => AOther ty v
          end) _).
  by intros [].
Defined.

(** What the runtime does with a key of a [map[interface{}]...]: hashing an
    unhashable key panics; a NaN is hashed but never compares equal, so it
    is never found; any other key is found under itself, the negative zero
    under the positive one. *)
Inductive key_kind : Type :=
| Unhashable (ty : string)
| NeverFound
| Found (k : any).

Definition map_key (key : any) : key_kind :=
  match key with
  | AUnhashable ty => Unhashable ty
  | AFloat64 S754_nan => NeverFound
  | AFloat64 (S754_zero _) => Found (AFloat64 (S754_zero false))
  | _ => Found key
  end.

Definition hashable (key : any) : bool :=
  match key with
  | AUnhashable _ => false
  | _ => true
  end.

Definition unhashable_key (ty : string) : string :=
  "runtime error: hash of unhashable type " +:+ ty.

(** A [map[interface{}]interface{}]: the entries that can be found, by key,
    and the values stored under NaN keys, which stay in the map and are never
    found. The nil map is [None]. *)
Record ifacemap : Type := {
  found : gmap any any;
  lost : list any
}.

(** [m[key]]: the key is hashed even when the map is nil or empty. [inl] is
    a panic with its message. *)
Definition ifacemap_lookup (m : option ifacemap) (key : any) : string + option any :=
  match map_key key with
  | Unhashable ty => inl (unhashable_key ty)
  | NeverFound => inr None
  | Found k =>
      inr (match m with
           | None => None
           | Some m => found m !! k
           end)
  end.

(** [m[key] = val]: a nil map panics before the key is hashed. *)
Definition ifacemap_store (m : option ifacemap) (key val : any)
  : string + option ifacemap :=
  match m with
  | None => inl nil_map_write
  | Some m =>
      match map_key key with
      | Unhashable ty => inl (unhashable_key ty)
      | NeverFound => inr (Some {| found := found m; lost := lost m ++ [val] |})
      | Found k => inr (Some {| found := <[k := val]> (found m); lost := lost m |})
      end
  end.

(** [delete(m, key)]: the key is hashed even when the map is nil or empty. *)
Definition ifacemap_delete (m : option ifacemap) (key : any)
  : string + option ifacemap :=
  match map_key key with
  | Unhashable ty => inl (unhashable_key ty)
  | NeverFound => inr m
  | Found k =>
      inr (match m with
           | None => None
           | Some m => Some {| found := delete k (found m); lost := lost m |}
           end)
  end.

(** Go's [error] values that occur in the repository. [nil] is [None] of
    [option error]. *)
Inductive error : Type :=
| SessionNotExist
| EscapeError (fragment : string)
| ErrorString (msg : string).

#[global] Instance error_eq_dec : EqDecision error.
Proof. solve_decision. Defined.

(** A Go result pair [(v, err)] in which exactly one side is set. *)
Inductive result (A : Type) : Type :=
| Ok (a : A)
| Err (e : error).
Arguments Ok {A} a.
Arguments Err {A} e.

End GoRuntime.
Import GoRuntime.

(** ** [net/url]: query escaping, after [escape], [unescape] and
    [shouldEscape] of the Go standard library in mode
    [encodeQueryComponent] *)

Module net_url.

Definition between (lo hi c : ascii) : bool :=
  ((N_of_ascii lo <=? N_of_ascii c) && (N_of_ascii c <=? N_of_ascii hi))%N.

(** In a query component only letters, digits and [-_.~] stay as they are. *)
Definition shouldEscape (c : ascii) : bool :=
  if between "a" "z" c || between "A" "Z" c || between "0" "9" c then false
  else if Ascii.eqb c "-" || Ascii.eqb c "_" || Ascii.eqb c "." || Ascii.eqb c "~"
  then false
  else true.

Definition upperhex (n : N) : ascii :=
  match String.get (N.to_nat n) "0123456789ABCDEF" with
  | Some c => c
  | None => "0"%char
  end.

Fixpoint escape (s : string) : string :=
  match s with
  | EmptyString => EmptyString
  | String c s' =>
      if shouldEscape c then
        if Ascii.eqb c " " then String "+" (escape s')
        else String "%"
               (String (upperhex (N.shiftr (N_of_ascii c) 4))
                  (String (upperhex (N.land (N_of_ascii c) 15)) (escape s')))
      else String c (escape s')
  end.

Definition QueryEscape (s : string) : string := escape s.

Definition ishex (c : ascii) : bool :=
  between "0" "9" c || between "a" "f" c || between "A" "F" c.

Definition unhex (c : ascii) : N :=
  if between "0" "9" c then N_of_ascii c - N_of_ascii "0"
  else if between "a" "f" c then N_of_ascii c - N_of_ascii "a" + 10
  else if between "A" "F" c then N_of_ascii c - N_of_ascii "A" + 10
  else 0.

(** [unescape] fails at the leftmost [%] that is not followed by two
    hexadecimal digits, reporting at most three bytes from there on. *)
Fixpoint unescape (s : string) : result string :=
  match s with
  | EmptyString => Ok EmptyString
  | String c s' =>
      if Ascii.eqb c "%" then
        match s' with
        | String a (String b s'') =>
            if ishex a && ishex b then
              match unescape s'' with
              | Ok t =>
                  Ok (String (ascii_of_N (N.lor (N.shiftl (unhex a) 4) (unhex b))) t)
              | Err e => Err e
              end
            else Err (EscapeError (String.substring 0 3 s))
        | _ => Err (EscapeError (String.substring 0 3 s))
        end
      else
        match unescape s' with
        | Ok t => Ok (String (if Ascii.eqb c "+" then " "%char else c) t)
        | Err e => Err e
        end
  end.

Definition QueryUnescape (s : string) : result string := unescape s.

End net_url.

(** ** [encoding/base64]: [URLEncoding.EncodeToString], padded *)

Module base64.

Definition encodeURL : string :=
  "ABCDEFGHIJKLMNOPQRSTUVWXYZabcdefghijklmnopqrstuvwxyz0123456789-_".

Definition enc (n : N) : ascii :=
  match String.get (N.to_nat (N.land n 63)) encodeURL with
  | Some c => c
  | None => "A"%char
  end.

Definition b (x : Byte.byte) : N := Byte.to_N x.

Fixpoint EncodeToString (src : list Byte.byte) : string :=
  match src with
  | [] => EmptyString
  | [x] =>
      let v := N.shiftl (b x) 16 in
      String (enc (N.shiftr v 18)) (String (enc (N.shiftr v 12))
        (String "=" (String "=" EmptyString)))
  | [x; y] =>
      let v := N.lor (N.shiftl (b x) 16) (N.shiftl (b y) 8) in
      String (enc (N.shiftr v 18)) (String (enc (N.shiftr v 12))
        (String (enc (N.shiftr v 6)) (String "=" EmptyString)))
  | x :: y :: z :: rest =>
      let v := N.lor (N.lor (N.shiftl (b x) 16) (N.shiftl (b y) 8)) (b z) in
      String (enc (N.shiftr v 18)) (String (enc (N.shiftr v 12))
        (String (enc (N.shiftr v 6)) (String (enc v) (EncodeToString rest))))
  end.

End base64.

(** ** [strings.ToLower] *)

Module strings.

Section ToLower.
(** [strings.Map(unicode.ToLower, s)], which Go applies to a string that has
    a byte outside ASCII; the Unicode case tables are not part of the
    repository. *)
Variable mapUnicodeLower : string → string.

Fixpoint isASCII (s : string) : bool :=
  match s with
  | EmptyString => true
  | String c s' => (N_of_ascii c <? 128)%N && isASCII s'
  end.

Definition lowerByte (c : ascii) : ascii :=
  if net_url.between "A" "Z" c then ascii_of_N (N_of_ascii c + 32) else c.

Fixpoint lowerASCII (s : string) : string :=
  match s with
  | EmptyString => EmptyString
  | String c s' => String (lowerByte c) (lowerASCII s')
  end.

Definition ToLower (s : string) : string :=
  if isASCII s then lowerASCII s else mapUnicodeLower s.
End ToLower.

End strings.

(** Monad notation for [M S]: stdpp's [x ← m; k] and [m ;; k]. *)
#[global] Instance M_ret {S} : MRet (M S) := λ A, @ret S A.
#[global] Instance M_bind {S} : MBind (M S) := λ A B k m, bind m k.

(** ** Package [abstract_definition]: the two interfaces

    An interface is a class over the state its methods act on ([St]) and the
    type of session handles ([Sess]). Every call of [time.Now()] in a method
    body is an explicit argument [now], in Unix seconds. *)

Module abstract_definition.

Class Session (St Sess : Type) : Type := {
  SetValue : Sess → any → any → M St (option error);
  GetValue : Sess → any → M St any;
  DeleteValue : Sess → any → M St (option error);
  GetSessionId : Sess → M St string
}.

Class StorageMedia (St Sess : Type) : Type := {
  InitializeSession : Z → string → M St Sess;
  RetrieveSession : string → M St (result Sess);
  UpdateSessionLastAccess : Z → string → M St (option error);
  DestroySession : string → M St (option error);
  TerminateSessionOnExpiration : Z → Z → M St unit
}.

(** [errors.Is(err, target)] on the flat errors of this repository. *)
Definition errors_Is (err : option error) (target : error) : bool :=
  match err with
  | None => false
  | Some e => bool_decide (e = target)
  end.

(** The [err] component of a result pair. *)
Definition err_of {A} (r : result A) : option error :=
  match r with
  | Ok _ => None
  | Err e => Some e
  end.

End abstract_definition.

(** ** Package [memory_storage] *)

Module memory_storage.
Import abstract_definition(errors_Is, err_of).

(** [MemorySession]; [lastAccessTime] is kept as its [Unix()] reading. *)
Record MemorySession : Type := {
  id : string;
  lastAccessTime : Z;
  value : option ifacemap
}.

(** A [*MemorySession]: an address in the heap of session objects. The
    sessions map and every handle given to a caller share the object. *)
Definition ptr : Type := nat.

(** [MemoryStorage]: the embedded [sync.Mutex], the counter and the map. *)
Record MemoryStorage : Type := {
  mutex : Mutex;
  activeSessions : Z;
  sessions : gomap string ptr
}.

(** The zero value [MemoryStorage{}]: the mutex free, the counter 0, the
    sessions map nil. *)
Definition zero : MemoryStorage :=
  {| mutex := false; activeSessions := 0; sessions := None |}.

(** What the methods of the package act on: the session objects allocated so
    far and the one store [memory]. *)
Record state : Type := {
  heap : list MemorySession;
  memory : MemoryStorage
}.

Definition set_memory (m : MemoryStorage) (s : state) : state :=
  {| heap := heap s; memory := m |}.
Definition set_mutex (held : Mutex) (m : MemoryStorage) : MemoryStorage :=
  {| mutex := held; activeSessions := activeSessions m; sessions := sessions m |}.
Definition set_activeSessions (n : Z) (m : MemoryStorage) : MemoryStorage :=
  {| mutex := mutex m; activeSessions := n; sessions := sessions m |}.
Definition set_sessions (ss : gomap string ptr) (m : MemoryStorage) : MemoryStorage :=
  {| mutex := mutex m; activeSessions := activeSessions m; sessions := ss |}.
Definition set_lastAccessTime (t : Z) (o : MemorySession) : MemorySession :=
  {| id := id o; lastAccessTime := t; value := value o |}.
Definition set_value (v : option ifacemap) (o : MemorySession) : MemorySession :=
  {| id := id o; lastAccessTime := lastAccessTime o; value := v |}.

(** [&MemorySession{...}] escaping to the heap, [*p] and [*p = o]. *)
Definition alloc (o : MemorySession) : M state ptr := λ s,
  Returns (length (heap s)) {| heap := heap s ++ [o]; memory := memory s |}.

Definition load (p : ptr) : M state MemorySession := λ s,
  match heap s !! p with
  | Some o => Returns o s
  | None => Panics nil_deref s
  end.

Definition store (p : ptr) (o : MemorySession) : M state unit := λ s,
  Returns tt {| heap := <[p := o]> (heap s); memory := memory s |}.

Definition Lock : M state unit :=
  zoom (λ s, mutex (memory s)) (λ held s, set_memory (set_mutex held (memory s)) s)
       Mutex_Lock.
Definition Unlock : M state unit :=
  zoom (λ s, mutex (memory s)) (λ held s, set_memory (set_mutex held (memory s)) s)
       Mutex_Unlock.

Definition update_memory (f : MemoryStorage → MemoryStorage) : M state unit :=
  modify (λ s, set_memory (f (memory s)) s).

(** *** Methods of [*MemorySession] *)

Definition SetValue (session : ptr) (key val : any) : M state (option error) :=
  o ← load session;
  match ifacemap_store (value o) key val with
  | inl msg => panic msg
  | inr v' => store session (set_value v' o);; mret None
  end.

Definition GetValue (session : ptr) (key : any) : M state any :=
  o ← load session;
  match ifacemap_lookup (value o) key with
  | inl msg => panic msg
  | inr v => mret (default ANil v)
  end.

Definition DeleteValue (session : ptr) (key : any) : M state (option error) :=
  o ← load session;
  match ifacemap_delete (value o) key with
  | inl msg => panic msg
  | inr v' => store session (set_value v' o);; mret None
  end.

Definition GetSessionId (session : ptr) : M state string :=
  o ← load session;
  mret (id o).

(** *** Methods of [*MemoryStorage] *)

Definition InitializeSession (now : Z) (sessionId : string) : M state ptr :=
  Lock;;
  defer Unlock (
    let sessionValue : option ifacemap := None in
    newSession ← alloc {| id := sessionId; lastAccessTime := now;
                          value := sessionValue |};
    update_memory (λ m, set_activeSessions (int64_add (activeSessions m) 1) m);;
    s ← get;
    match gomap_store (sessions (memory s)) sessionId newSession with
    | None => panic nil_map_write
    | Some ss => update_memory (set_sessions ss);; mret newSession
    end).

Definition RetrieveSession (sessionId : string) : M state (result ptr) :=
  Lock;;
  defer Unlock (
    s ← get;
    match gomap_lookup (sessions (memory s)) sessionId with
    | None => mret (Err SessionNotExist)
    | Some session => mret (Ok session)
    end).

Definition UpdateSessionLastAccess (now : Z) (sessionId : string)
  : M state (option error) :=
  Lock;;
  defer Unlock (
    r ← RetrieveSession sessionId;
    if errors_Is (err_of r) SessionNotExist then mret (err_of r)
    else
      s ← get;
      match gomap_lookup (sessions (memory s)) sessionId with
      | None => panic nil_deref
      | Some session =>
          o ← load session;
          store session (set_lastAccessTime now o);;
          mret None
      end).

Definition DestroySession (sessionId : string) : M state (option error) :=
  Lock;;
  defer Unlock (
    r ← RetrieveSession sessionId;
    if errors_Is (err_of r) SessionNotExist then mret (err_of r)
    else
      update_memory (λ m, set_sessions (gomap_delete (sessions m) sessionId) m);;
      update_memory (λ m, set_activeSessions (int64_sub (activeSessions m) 1) m);;
      mret None).

(** One iteration of the [range] loop of the sweep, at an entry
    [(sessionId, session)] of the map. *)
Definition sweep_entry (now maxLifetime : Z) (e : string * ptr) : M state unit :=
  o ← load e.2;
  if int64_add (lastAccessTime o) maxLifetime >? now then
    update_memory (λ m, set_sessions (gomap_delete (sessions m) e.1) m);;
    update_memory (λ m, set_activeSessions (int64_sub (activeSessions m) 1) m)
  else mret tt.

(** The loop deletes no entry but the one it is at, so it visits exactly the
    entries the map has when the loop starts. The source reads
    [time.Now().Unix()] in every iteration; here [now] is that reading when
    the sweep runs within one second of the clock. The sweep with one reading
    per iteration is [TerminateSessionOnExpiration_with_clock] below. *)
Definition TerminateSessionOnExpiration (now maxLifetime : Z) : M state unit :=
  Lock;;
  defer Unlock (
    s ← get;
    forM_ (gomap_entries (sessions (memory s))) (sweep_entry now maxLifetime)).

#[global] Instance MemorySession_Session : abstract_definition.Session state ptr := {
  abstract_definition.SetValue := SetValue;
  abstract_definition.GetValue := GetValue;
  abstract_definition.DeleteValue := DeleteValue;
  abstract_definition.GetSessionId := GetSessionId
}.

#[global] Instance MemoryStorage_StorageMedia :
  abstract_definition.StorageMedia state ptr := {
  abstract_definition.InitializeSession := InitializeSession;
  abstract_definition.RetrieveSession := RetrieveSession;
  abstract_definition.UpdateSessionLastAccess := UpdateSessionLastAccess;
  abstract_definition.DestroySession := DestroySession;
  abstract_definition.TerminateSessionOnExpiration := TerminateSessionOnExpiration
}.

End memory_storage.

(** ** Package [wsm_backup]: the session manager *)

Module wsm_backup.
Import abstract_definition.

(** [http.Cookie], with the fields the manager sets. [Expires] is [None] for
    the zero [time.Time], otherwise Unix seconds. *)
Record Cookie : Type := {
  Name : string;
  Value : string;
  Path : string;
  HttpOnly : bool;
  MaxAge : Z;
  Expires : option Z
}.

(** A request is the list of the cookies it carries, in header order;
    [request.Cookie(name)] gives the first one of that name, or fails. *)
Definition Request_Cookie (request : list Cookie) (name : string) : option Cookie :=
  find (λ c, bool_decide (Name c = name)) request.

(** [supportedStorageMediaTypes] *)
Definition supportedStorageMediaTypes : list string :=
  ["memory"; "file"; "postgres"].

(** [fmt]'s [%v] of a [[]string]. *)
Definition fmt_strings (l : list string) : string :=
  "[" +:+ String.concat " " l +:+ "]".

(** [generateUniqueSessionID]. [entropy] is what [rand.Reader] can supply:
    [io.ReadFull] fills the 32 bytes of [b] or fails, and the failure gives
    the empty identifier. *)
Definition generateUniqueSessionID (entropy : list Byte.byte) : string :=
  if (length entropy <? 32)%nat then EmptyString
  else base64.EncodeToString (take 32 entropy).

Section Manager.
Context {SM : Type}.

(** [SessionManager]; the storage media behind the interface value is kept
    in the record. *)
Record SessionManager : Type := {
  mutex : Mutex;
  cookieName : string;
  storageMedia : SM;
  maxLifetime : Z
}.

Section New.
(** The Unicode case mapping behind [strings.ToLower]; the three values
    registered in [supportedStorageMedia] (for ["memory"] it is
    [&memory_storage.MemoryStorage{}]; the other two come from the packages
    [file_storage] and [postgres_storage]); and [sessionStorage], which
    reads and writes the registration file and may ask on standard input:
    it returns a storage media with a nil error, or ends the process
    ([None]) through [log.Fatal] or a panic. *)
Variable mapUnicodeLower : string → string.
Variables memoryMedia fileMedia postgresMedia : SM.
Variable sessionStorage : string → SM → option SM.

Definition supportedStorageMedia : gmap string SM :=
  <["memory" := memoryMedia]>
    (<["file" := fileMedia]> (<["postgres" := postgresMedia]> ∅)).

Definition unsupported (storageMediaType : string) : error :=
  ErrorString
    ("wsm: unsupported storage media type " +:+ storageMediaType +:+
     ", the supported storage media types are " +:+
     fmt_strings supportedStorageMediaTypes).

(** [None]: the process was ended inside [sessionStorage]. *)
Definition NewSessionManager
    (storageMediaType cookieName : string) (maxLifetime : Z)
  : option (result SessionManager) :=
  let storageMediaType := strings.ToLower mapUnicodeLower storageMediaType in
  match supportedStorageMedia !! storageMediaType with
  | None => Some (Err (unsupported storageMediaType))
  | Some storageMedia =>
      match sessionStorage storageMediaType storageMedia with
      | None => None
      | Some registeredStorage =>
          Some (Ok {| mutex := false;
                      cookieName := cookieName;
                      storageMedia := registeredStorage;
                      maxLifetime := maxLifetime |})
      end
  end.
End New.

(** What a request handler acts on: the manager and the [Set-Cookie]
    headers written to the response so far. *)
Record world : Type := {
  manager : SessionManager;
  response : list Cookie
}.

Definition set_manager (m : SessionManager) (w : world) : world :=
  {| manager := m; response := response w |}.
Definition set_mutex (held : Mutex) (m : SessionManager) : SessionManager :=
  {| mutex := held; cookieName := cookieName m;
     storageMedia := storageMedia m; maxLifetime := maxLifetime m |}.
Definition set_storageMedia (sm : SM) (m : SessionManager) : SessionManager :=
  {| mutex := mutex m; cookieName := cookieName m;
     storageMedia := sm; maxLifetime := maxLifetime m |}.

Definition Lock : M world unit :=
  zoom (λ w, mutex (manager w))
       (λ held w, set_manager (set_mutex held (manager w)) w) Mutex_Lock.
Definition Unlock : M world unit :=
  zoom (λ w, mutex (manager w))
       (λ held w, set_manager (set_mutex held (manager w)) w) Mutex_Unlock.

(** A method call on [manager.storageMedia]. *)
Definition onStorage {A} (m : M SM A) : M world A :=
  zoom (λ w, storageMedia (manager w))
       (λ sm w, set_manager (set_storageMedia sm (manager w)) w) m.

(** [http.SetCookie(response, cookie)], for a cookie whose name is a valid
    token: one more [Set-Cookie] header. *)
Definition SetCookie (cookie : Cookie) : M world unit :=
  modify (λ w, {| manager := manager w; response := response w ++ [cookie] |}).

Context {Sess : Type} `{!StorageMedia SM Sess}.

(** [MaxAge: int(manager.maxLifetime)]: [int] has 64 bits on the platforms
    considered, so the conversion keeps the value. *)
Definition StartSession (entropy : list Byte.byte) (now : Z)
    (request : list Cookie) : M world (result Sess) :=
  Lock;;
  defer Unlock (
    w ← get;
    let fresh : M world (result Sess) :=
      let sessionId := generateUniqueSessionID entropy in
      session ← onStorage (InitializeSession now sessionId);
      SetCookie {| Name := cookieName (manager w);
                   Value := net_url.QueryEscape sessionId;
                   Path := "/"; HttpOnly := true;
                   MaxAge := maxLifetime (manager w);
                   Expires := None |};;
      mret (Ok session) in
    match Request_Cookie request (cookieName (manager w)) with
    | None => fresh
    | Some cookie =>
        if String.eqb (Value cookie) "" then fresh
        else
          match net_url.QueryUnescape (Value cookie) with
          | Err err => mret (Err err)
          | Ok sessionId =>
              r ← onStorage (RetrieveSession sessionId);
              match r with
              | Err err => mret (Err err)
              | Ok session => mret (Ok session)
              end
          end
    end).

Definition EndSession (now : Z) (request : list Cookie) : M world unit :=
  w ← get;
  match Request_Cookie request (cookieName (manager w)) with
  | None => mret tt
  | Some cookie =>
      if String.eqb (Value cookie) "" then mret tt
      else
        Lock;;
        defer Unlock (
          _ ← onStorage (DestroySession (Value cookie));
          let expiration := now in
          SetCookie {| Name := cookieName (manager w);
                       Value := "";
                       Path := "/"; HttpOnly := true;
                       MaxAge := -1;
                       Expires := Some expiration |})
  end.

(** One run of [SessionsExpirationRoutine]. [time.AfterFunc(d, f)] hands the
    next run to the runtime timer and returns at once; the run gives back
    [d], the [time.Duration] (nanoseconds) after which the timer starts the
    next run. *)
Definition SessionsExpirationRoutine (now : Z) : M world Z :=
  Lock;;
  defer Unlock (
    w ← get;
    onStorage (TerminateSessionOnExpiration now (maxLifetime (manager w)));;
    mret (maxLifetime (manager w))).
End Manager.

Arguments SessionManager : clear implicits.
Arguments world : clear implicits.

End wsm_backup.

(** ** Vocabulary of the properties *)

Module Props.
Import memory_storage.

(** [sub] occurs in [s]. *)
Definition occurs_in (sub s : string) : Prop :=
  ∃ pre post, s = pre +:+ sub +:+ post.

(** The session registered under an identifier, if any. *)
Definition registered (s : state) (sessionId : string) : option ptr :=
  gomap_lookup (sessions (memory s)) sessionId.

(** The number of entries of the sessions map. *)
Definition entries (s : state) : Z :=
  Z.of_nat (gomap_len (sessions (memory s))).

(** The sweep's test on the object behind a handle, as the loop body has it. *)
Definition swept (now maxLifetime : Z) (h : list MemorySession) (p : ptr) : bool :=
  match h !! p with
  | Some o => int64_add (lastAccessTime o) maxLifetime >? now
  | None => false
  end.

Definition keep (now maxLifetime : Z) (h : list MemorySession) (p : ptr) : option ptr :=
  if swept now maxLifetime h p then None else Some p.

(** The object [InitializeSession] allocates. *)
Definition fresh_session (now : Z) (sessionId : string) : MemorySession :=
  {| id := sessionId; lastAccessTime := now; value := None |}.

(** Every registered handle points to an allocated object. *)
Definition handles_valid (s : state) : Prop :=
  ∀ sessionId p, registered s sessionId = Some p → is_Some (heap s !! p).

(** What every store that completed calls lead to satisfies: the mutex is
    free between calls, the handles are valid and the counter is the number
    of entries, as an [int64]. *)
Definition consistent (s : state) : Prop :=
  mutex (memory s) = false ∧ handles_valid s ∧
  activeSessions (memory s) = wrap64 (entries s).

(** The calls of the [StorageMedia] interface on the store. *)
Inductive call : Type :=
| CallInitialize (now : Z) (sessionId : string)
| CallRetrieve (sessionId : string)
| CallUpdate (now : Z) (sessionId : string)
| CallDestroy (sessionId : string)
| CallTerminate (now maxLifetime : Z).

Definition run (c : call) : M state unit :=
  match c with
  | CallInitialize now sessionId => _ ← InitializeSession now sessionId; mret tt
  | CallRetrieve sessionId => _ ← RetrieveSession sessionId; mret tt
  | CallUpdate now sessionId => _ ← UpdateSessionLastAccess now sessionId; mret tt
  | CallDestroy sessionId => _ ← DestroySession sessionId; mret tt
  | CallTerminate now maxLifetime => TerminateSessionOnExpiration now maxLifetime
  end.

(** [InitializeSession] is only called with an identifier that is not
    registered. *)
Definition admissible (c : call) (s : state) : Prop :=
  match c with
  | CallInitialize _ sessionId => registered s sessionId = None
  | _ => True
  end.

(** One completed call. *)
Definition step (s s' : state) : Prop :=
  ∃ c, admissible c s ∧ run c s = Returns tt s'.

(** A store with no session: the counter is 0, the mutex free and the map
    nil (the zero value) or allocated and empty. *)
Definition empty_store (s : state) : Prop :=
  mutex (memory s) = false ∧ activeSessions (memory s) = 0 ∧
  (sessions (memory s) = None ∨ sessions (memory s) = Some ∅).

Definition reachable (s : state) : Prop :=
  ∃ s0, empty_store s0 ∧ rtc step s0 s.

(** Concrete stores and worlds used below. *)
Definition zero_state : state := {| heap := []; memory := zero |}.

Definition allocated_state : state :=
  {| heap := []; memory := set_sessions (Some ∅) zero |}.

Definition one_session (t : Z) : state :=
  {| heap := [{| id := "a"; lastAccessTime := t; value := None |}];
     memory := {| mutex := false; activeSessions := 1;
                  sessions := Some {["a" := 0%nat]} |} |}.

Definition world_of (s : state) : wsm_backup.world state :=
  {| wsm_backup.manager :=
       {| wsm_backup.mutex := false; wsm_backup.cookieName := "sid";
          wsm_backup.storageMedia := s; wsm_backup.maxLifetime := 3600 |};
     wsm_backup.response := [] |}.

Definition zero_entropy : list Byte.byte := replicate 32 Byte.x00.

(** The store behind a manager, and whether the manager and its store are
    between calls (both mutexes free). *)
Definition store_of (w : wsm_backup.world state) : state :=
  wsm_backup.storageMedia (wsm_backup.manager w).

Definition idle (w : wsm_backup.world state) : Prop :=
  wsm_backup.mutex (wsm_backup.manager w) = false ∧
  mutex (memory (store_of w)) = false.

(** The cookie of the manager's name that a request carries, if any. *)
Definition cookie_of (w : wsm_backup.world state) (request : list wsm_backup.Cookie)
  : option wsm_backup.Cookie :=
  wsm_backup.Request_Cookie request (wsm_backup.cookieName (wsm_backup.manager w)).

End Props.
Import Props.

(** ** Vocabulary for the code around the claims *)

Module Usage.
Import memory_storage.

(** The calls an application makes on a session handle. *)
Inductive session_call : Type :=
| CallSetValue (session : ptr) (key val : any)
| CallGetValue (session : ptr) (key : any)
| CallDeleteValue (session : ptr) (key : any)
| CallGetSessionId (session : ptr).

Definition run_session (c : session_call) : M state unit :=
  match c with
  | CallSetValue session key val => _ ← SetValue session key val; mret tt
  | CallGetValue session key => _ ← GetValue session key; mret tt
  | CallDeleteValue session key => _ ← DeleteValue session key; mret tt
  | CallGetSessionId session => _ ← GetSessionId session; mret tt
  end.

(** One completed call on the store or on a session. *)
Definition app_step (s s' : state) : Prop :=
  step s s' ∨ ∃ c, run_session c s = Returns tt s'.

Definition app_reachable (s : state) : Prop :=
  ∃ s0, empty_store s0 ∧ rtc app_step s0 s.

(** Every registered session is an allocated object that carries the
    identifier it is registered under and a nil value map. *)
Definition pristine (s : state) : Prop :=
  ∀ sessionId p, registered s sessionId = Some p →
    ∃ o, heap s !! p = Some o ∧ id o = sessionId ∧ value o = None.

(** What a call leaves behind when it is over, whether it returned or
    panicked: a panic unwinds through the deferred Unlock and leaves the
    store as the call had changed it. *)
Definition left_by (c : call) (s s' : state) : Prop :=
  run c s = Returns tt s' ∨ ∃ msg, run c s = Panics msg s'.

Definition attempted_step (s s' : state) : Prop :=
  ∃ c, admissible c s ∧ left_by c s s'.

(** The stores that calls leave behind, from an empty store. *)
Definition left_behind (s : state) : Prop :=
  ∃ s0, empty_store s0 ∧ rtc attempted_step s0 s.

(** The loop of the sweep with the clock read anew in every iteration, as
    the source reads it: [readings] are the values of [time.Now().Unix()] in
    the order of the iterations. *)
Fixpoint sweep_with_clock (maxLifetime : Z) (l : list (string * ptr))
    (readings : list Z) : M state unit :=
  match l, readings with
  | e :: l', now :: readings' =>
      sweep_entry now maxLifetime e;; sweep_with_clock maxLifetime l' readings'
  | _, _ => mret tt
  end.

Definition TerminateSessionOnExpiration_with_clock (readings : list Z)
    (maxLifetime : Z) : M state unit :=
  Lock;;
  defer Unlock (
    s ← get;
    sweep_with_clock maxLifetime (gomap_entries (sessions (memory s))) readings).

(** A sequence of calls on the store, one after the other. *)
Definition run_calls (cs : list call) : M state unit := forM_ cs run.

(** No byte of the string is escaped in a query component. *)
Fixpoint unreserved (s : string) : bool :=
  match s with
  | EmptyString => true
  | String c s' => negb (net_url.shouldEscape c) && unreserved s'
  end.

(** A session with an allocated value map, as code inside the package can
    build it, and a store with two sessions over the map [two_entries]. *)
Definition two_entries : gmap string ptr := <["b" := 1%nat]> {["a" := 0%nat]}.

Definition with_values (vm : gmap any any) : state :=
  {| heap := [{| id := "a"; lastAccessTime := 0;
                 value := Some {| found := vm; lost := [] |} |}];
     memory := {| mutex := false; activeSessions := 1;
                  sessions := Some {["a" := 0%nat]} |} |}.

Definition two_sessions (t1 t2 : Z) : state :=
  {| heap := [fresh_session t1 "a"; fresh_session t2 "b"];
     memory := {| mutex := false; activeSessions := 2;
                  sessions := Some (<["b" := 1%nat]> {["a" := 0%nat]}) |} |}.

Definition short_entropy : list Byte.byte := replicate 5 Byte.x00.

(** The cookie StartSession writes, and the one EndSession writes. *)
Definition session_cookie (name sessionId : string) (maxLifetime : Z)
  : wsm_backup.Cookie :=
  {| wsm_backup.Name := name; wsm_backup.Value := net_url.QueryEscape sessionId;
     wsm_backup.Path := "/"; wsm_backup.HttpOnly := true;
     wsm_backup.MaxAge := maxLifetime; wsm_backup.Expires := None |}.

(** A cookie as a request carries it: a name and a value. *)
Definition request_cookie (name v : string) : wsm_backup.Cookie :=
  {| wsm_backup.Name := name; wsm_backup.Value := v;
     wsm_backup.Path := ""; wsm_backup.HttpOnly := false;
     wsm_backup.MaxAge := 0; wsm_backup.Expires := None |}.

Definition expired_cookie (name : string) (now : Z) : wsm_backup.Cookie :=
  {| wsm_backup.Name := name; wsm_backup.Value := "";
     wsm_backup.Path := "/"; wsm_backup.HttpOnly := true;
     wsm_backup.MaxAge := -1; wsm_backup.Expires := Some now |}.

End Usage.
Import Usage.

(** ** Identifier codec *)

Section Codec.
Import net_url.

Lemma unescape_escape_cons (c : ascii) (s : string) :
  unescape (escape (String c s)) =
  match unescape (escape s) with
  | Ok t => Ok (String c t)
  | Err e => Err e
  end.
Proof.
  destruct c as [[] [] [] [] [] [] [] []]; reflexivity.
Qed.

Lemma QueryUnescape_QueryEscape (s : string) :
  QueryUnescape (QueryEscape s) = Ok s.
Proof.
  unfold QueryUnescape, QueryEscape.
  induction s as [|c s IH]; [reflexivity|].
  by rewrite unescape_escape_cons, IH.
Qed.

(** Escaping never shortens, and it lengthens a string that has a byte
    outside the unreserved set. *)
Lemma escape_length (s : string) :
  (String.length s ≤ String.length (escape s))%nat.
Proof.
  induction s as [|c s IH]; simpl; [lia|].
  destruct (shouldEscape c); [destruct (Ascii.eqb c " ")|]; simpl; lia.
Qed.

Lemma escape_app (s t : string) : escape (s +:+ t) = escape s +:+ escape t.
Proof.
  induction s as [|c s IH]; simpl; [reflexivity|].
  rewrite IH.
  destruct (shouldEscape c); [destruct (Ascii.eqb c " ")|]; reflexivity.
Qed.
End Codec.

(** C7. Every identifier [generateUniqueSessionID] produces (the padded
    URL-safe base64 of 32 random bytes, or the empty identifier when the
    randomness source fails) survives [url.QueryEscape] followed by
    [url.QueryUnescape] unchanged: the unescaping succeeds and gives the
    identifier back. *)
Theorem generated_id_roundtrip (entropy : list Byte.byte) :
  net_url.QueryUnescape
    (net_url.QueryEscape (wsm_backup.generateUniqueSessionID entropy))
  = Ok (wsm_backup.generateUniqueSessionID entropy).
Proof. apply QueryUnescape_QueryEscape. Qed.

Lemma EncodeToString_padded (n : nat) (src : list Byte.byte) :
  length src = (3 * n + 2)%nat →
  ∃ t, base64.EncodeToString src = t +:+ "=".
Proof.
  revert src. induction n as [|n IH]; intros src Hlen.
  - destruct src as [|x [|y [|z rest]]]; simpl in Hlen; try lia.
    eexists (String _ (String _ (String _ EmptyString))). reflexivity.
  - destruct src as [|x [|y [|z rest]]]; simpl in Hlen; try lia.
    destruct (IH rest) as [t Ht]; [lia|].
    exists (String (base64.enc (N.shiftr (N.lor (N.lor (N.shiftl (base64.b x) 16)
              (N.shiftl (base64.b y) 8)) (base64.b z)) 18))
           (String (base64.enc (N.shiftr (N.lor (N.lor (N.shiftl (base64.b x) 16)
              (N.shiftl (base64.b y) 8)) (base64.b z)) 12))
           (String (base64.enc (N.shiftr (N.lor (N.lor (N.shiftl (base64.b x) 16)
              (N.shiftl (base64.b y) 8)) (base64.b z)) 6))
           (String (base64.enc (N.lor (N.lor (N.shiftl (base64.b x) 16)
              (N.shiftl (base64.b y) 8)) (base64.b z))) t)))).
    change (base64.EncodeToString (x :: y :: z :: rest)) with
      (let v := N.lor (N.lor (N.shiftl (base64.b x) 16) (N.shiftl (base64.b y) 8))
                  (base64.b z) in
       String (base64.enc (N.shiftr v 18)) (String (base64.enc (N.shiftr v 12))
         (String (base64.enc (N.shiftr v 6))
            (String (base64.enc v) (base64.EncodeToString rest))))).
    cbv zeta. rewrite Ht. reflexivity.
Qed.

Lemma string_app_cons (c : ascii) (s t : string) :
  String c s +:+ t = String c (s +:+ t).
Proof. reflexivity. Qed.

Lemma string_app_assoc (s t u : string) : (s +:+ t) +:+ u = s +:+ (t +:+ u).
Proof.
  induction s as [|c s IH]; [reflexivity|].
  by rewrite !string_app_cons, IH.
Qed.

Lemma string_app_length (s t : string) :
  String.length (s +:+ t) = (String.length s + String.length t)%nat.
Proof.
  induction s as [|c s IH]; [reflexivity|].
  rewrite string_app_cons. simpl. by rewrite IH.
Qed.

(** The cookie value written for a generated identifier is not the
    identifier: the base64 padding [=] is escaped to [%3D]. *)
Lemma escaped_id_differs (entropy : list Byte.byte) :
  (32 ≤ length entropy)%nat →
  net_url.QueryEscape (wsm_backup.generateUniqueSessionID entropy)
  ≠ wsm_backup.generateUniqueSessionID entropy.
Proof.
  intros Hlen. unfold wsm_backup.generateUniqueSessionID, net_url.QueryEscape.
  destruct (Nat.ltb_spec (length entropy) 32) as [?|_]; [lia|].
  destruct (EncodeToString_padded 10 (take 32 entropy)) as [t Ht].
  { rewrite length_take. lia. }
  rewrite Ht, escape_app. intros Heq.
  apply (f_equal String.length) in Heq.
  rewrite !string_app_length in Heq. simpl in Heq.
  pose proof (escape_length t). lia.
Qed.

(** ** Construction of the manager *)

Section Construction.
Import wsm_backup.
Context {SM : Type}.
Variable mapUnicodeLower : string → string.
Variables memoryMedia fileMedia postgresMedia : SM.
Variable sessionStorage : string → SM → option SM.

Lemma supportedStorageMedia_None (t : string) :
  t ∉ supportedStorageMediaTypes →
  supportedStorageMedia memoryMedia fileMedia postgresMedia !! t = None.
Proof.
  unfold supportedStorageMediaTypes, supportedStorageMedia. intros Hnot.
  rewrite !not_elem_of_cons in Hnot. destruct Hnot as (? & ? & ? & _).
  by rewrite !lookup_insert_ne, lookup_empty.
Qed.

Lemma unsupported_enumerates (t ty : string) :
  ty ∈ supportedStorageMediaTypes →
  ∃ msg, unsupported t = ErrorString msg ∧ occurs_in ty msg.
Proof.
  intros Hin. eexists; split; [reflexivity|].
  unfold supportedStorageMediaTypes in Hin.
  rewrite !elem_of_cons in Hin.
  destruct Hin as [->|[->|[->|Hin]]]; [| | |by apply elem_of_nil in Hin].
  - exists ("wsm: unsupported storage media type " +:+ t +:+
            ", the supported storage media types are ["), " file postgres]".
    unfold unsupported. rewrite !string_app_assoc. reflexivity.
  - exists ("wsm: unsupported storage media type " +:+ t +:+
            ", the supported storage media types are [memory "), " postgres]".
    unfold unsupported. rewrite !string_app_assoc. reflexivity.
  - exists ("wsm: unsupported storage media type " +:+ t +:+
            ", the supported storage media types are [memory file "), "]".
    unfold unsupported. rewrite !string_app_assoc. reflexivity.
Qed.

(** C9, as the code has it. [NewSessionManager] lower-cases the storage
    media type first. For every type string whose lower-cased form is not
    one of "memory", "file", "postgres", it returns no manager and an error
    whose message names the lower-cased type and lists every supported
    type; the registration file is not touched. *)
Theorem NewSessionManager_unsupported
    (storageMediaType cookieName : string) (maxLifetime : Z) :
  strings.ToLower mapUnicodeLower storageMediaType ∉ supportedStorageMediaTypes →
  ∃ msg,
    NewSessionManager mapUnicodeLower memoryMedia fileMedia postgresMedia
      sessionStorage storageMediaType cookieName maxLifetime
    = Some (Err (ErrorString msg)) ∧
    msg = "wsm: unsupported storage media type " +:+
          strings.ToLower mapUnicodeLower storageMediaType +:+
          ", the supported storage media types are [memory file postgres]" ∧
    ∀ ty, ty ∈ supportedStorageMediaTypes → occurs_in ty msg.
Proof.
  intros Hnot. eexists. split; [|split].
  - unfold NewSessionManager.
    rewrite (supportedStorageMedia_None _ Hnot). reflexivity.
  - reflexivity.
  - intros ty Hty.
    destruct (unsupported_enumerates
                (strings.ToLower mapUnicodeLower storageMediaType) ty Hty)
      as (msg & Hmsg & Hocc).
    by injection Hmsg as <-.
Qed.
End Construction.

Lemma NewSessionManager_unsupported_witness :
  ∃ msg,
    wsm_backup.NewSessionManager (λ s, s) () () () (λ _ sm, Some sm)
      "redis" "sid" 3600
    = Some (Err (ErrorString msg)) ∧
    msg = "wsm: unsupported storage media type redis, the supported storage media types are [memory file postgres]" ∧
    ∀ ty, ty ∈ wsm_backup.supportedStorageMediaTypes → occurs_in ty msg.
Proof.
  apply (NewSessionManager_unsupported (λ s, s) () () () (λ _ sm, Some sm)
           "redis" "sid" 3600).
  vm_compute. intros Hin.
  repeat (apply elem_of_cons in Hin as [Hin|Hin]; [discriminate|]).
  by apply elem_of_nil in Hin.
Defined.

(** C9 as stated fails: "Memory" is not one of the three supported strings,
    yet whatever the Unicode tables and the registration file are, it is not
    rejected as unsupported, because the type is lower-cased before the
    lookup. *)
Lemma NewSessionManager_mixed_case_accepted :
  ("Memory" ∉ wsm_backup.supportedStorageMediaTypes) ∧
  (∀ (mapUnicodeLower : string → string) (sessionStorage : string → () → option ())
     (e : error),
     wsm_backup.NewSessionManager mapUnicodeLower () () () sessionStorage
       "Memory" "sid" 3600 ≠ Some (Err e)).
Proof.
  split.
  - unfold wsm_backup.supportedStorageMediaTypes. intros Hin.
    repeat (apply elem_of_cons in Hin as [Hin|Hin]; [discriminate|]).
    by apply elem_of_nil in Hin.
  - intros mapUnicodeLower sessionStorage e.
    unfold wsm_backup.NewSessionManager.
    change (strings.ToLower mapUnicodeLower "Memory") with "memory".
    change (wsm_backup.supportedStorageMedia () () () !! "memory") with (Some ()).
    cbv beta iota zeta.
    destruct (sessionStorage "memory" ()); intros Heq; discriminate Heq.
Qed.

(** ** The in-memory store *)

Ltac unfold_M :=
  unfold mbind, M_bind, bind, mret, M_ret, ret, defer, zoom, get, modify,
    panic, Mutex_Lock, Mutex_Unlock in *.

Section Store.
Import memory_storage.

Lemma wrap64_small (z : Z) : - 2 ^ 63 ≤ z < 2 ^ 63 → wrap64 z = z.
Proof. intros Hz. unfold wrap64. rewrite Z.mod_small; lia. Qed.

Lemma wrap64_idemp_l (a b : Z) : wrap64 (wrap64 a + b) = wrap64 (a + b).
Proof.
  unfold wrap64. f_equal.
  replace ((a + 2 ^ 63) `mod` 2 ^ 64 - 2 ^ 63 + b + 2 ^ 63)
    with ((a + 2 ^ 63) `mod` 2 ^ 64 + b) by lia.
  rewrite Zplus_mod_idemp_l. f_equal. lia.
Qed.

(** *** [RetrieveSession] *)

Lemma RetrieveSession_free (sessionId : string) (s : state) :
  mutex (memory s) = false →
  RetrieveSession sessionId s =
  Returns (match registered s sessionId with
           | Some session => Ok session
           | None => Err SessionNotExist
           end) s.
Proof.
  destruct s as [h [held c ss]]. simpl. intros ->.
  unfold RetrieveSession, registered, Lock, Unlock. unfold_M. simpl.
  by destruct (gomap_lookup ss sessionId).
Qed.

Lemma RetrieveSession_held (sessionId : string) (s : state) :
  mutex (memory s) = true → RetrieveSession sessionId s = Blocks.
Proof. destruct s as [h [held c ss]]. simpl. by intros ->. Qed.

(** *** [UpdateSessionLastAccess] and [DestroySession]

    Both take the store's mutex and then call [RetrieveSession], which
    takes it again: the second [Lock] never returns. *)

Lemma UpdateSessionLastAccess_blocks (now : Z) (sessionId : string) (s : state) :
  UpdateSessionLastAccess now sessionId s = Blocks.
Proof. by destruct s as [h [[] c ss]]. Qed.

Lemma DestroySession_blocks (sessionId : string) (s : state) :
  DestroySession sessionId s = Blocks.
Proof. by destruct s as [h [[] c ss]]. Qed.

(** *** [InitializeSession] *)

Lemma InitializeSession_nil (now : Z) (sessionId : string) (s : state) :
  mutex (memory s) = false →
  sessions (memory s) = None →
  InitializeSession now sessionId s =
  Panics nil_map_write
    {| heap := heap s ++ [fresh_session now sessionId];
       memory := {| mutex := false;
                    activeSessions := int64_add (activeSessions (memory s)) 1;
                    sessions := None |} |}.
Proof. destruct s as [h [held c ss]]. simpl. by intros -> ->. Qed.

Lemma InitializeSession_allocated (now : Z) (sessionId : string) (s : state)
    (m : gmap string ptr) :
  mutex (memory s) = false →
  sessions (memory s) = Some m →
  InitializeSession now sessionId s =
  Returns (length (heap s))
    {| heap := heap s ++ [fresh_session now sessionId];
       memory := {| mutex := false;
                    activeSessions := int64_add (activeSessions (memory s)) 1;
                    sessions := Some (<[sessionId := length (heap s)]> m) |} |}.
Proof. destruct s as [h [held c ss]]. simpl. by intros -> ->. Qed.

Lemma InitializeSession_held (now : Z) (sessionId : string) (s : state) :
  mutex (memory s) = true → InitializeSession now sessionId s = Blocks.
Proof. destruct s as [h [held c ss]]. simpl. by intros ->. Qed.

(** A call that returns found the mutex free and the map allocated. *)
Lemma InitializeSession_Returns (now : Z) (sessionId : string) (s s' : state)
    (session : ptr) :
  InitializeSession now sessionId s = Returns session s' →
  ∃ m, mutex (memory s) = false ∧ sessions (memory s) = Some m ∧
       session = length (heap s) ∧
       s' = {| heap := heap s ++ [fresh_session now sessionId];
               memory := {| mutex := false;
                            activeSessions := int64_add (activeSessions (memory s)) 1;
                            sessions := Some (<[sessionId := length (heap s)]> m) |} |}.
Proof.
  intros Hret.
  destruct (mutex (memory s)) eqn:Hmu.
  { by rewrite InitializeSession_held in Hret. }
  destruct (sessions (memory s)) as [m|] eqn:Hss.
  - rewrite (InitializeSession_allocated _ _ _ m) in Hret by done.
    injection Hret as <- <-. by exists m.
  - by rewrite InitializeSession_nil in Hret.
Qed.
End Store.

(** *** The sweep *)

Section Sweep.
Import memory_storage.
Variables now maxLifetime : Z.

Lemma sweep_entry_run (e : string * ptr) (s : state) (o : MemorySession) :
  heap s !! e.2 = Some o →
  sweep_entry now maxLifetime e s =
  Returns tt
    (if int64_add (lastAccessTime o) maxLifetime >? now then
       {| heap := heap s;
          memory := {| mutex := mutex (memory s);
                       activeSessions := int64_sub (activeSessions (memory s)) 1;
                       sessions := gomap_delete (sessions (memory s)) e.1 |} |}
     else s).
Proof.
  destruct s as [h [held c ss]]. simpl. intros Ho.
  unfold sweep_entry, load, update_memory. unfold_M. simpl. rewrite Ho.
  by destruct (int64_add (lastAccessTime o) maxLifetime >? now).
Qed.

(** The loop over a duplicate-free list of entries of the map: it returns,
    it leaves the heap and the mutex alone, it removes exactly the visited
    entries that pass the test, and it keeps the counter in step with the
    size of the map. *)
Lemma sweep_loop (l : list (string * ptr)) :
  ∀ (s : state) (m : gmap string ptr),
    sessions (memory s) = Some m →
    NoDup l.*1 →
    (∀ k p, (k, p) ∈ l → m !! k = Some p ∧ is_Some (heap s !! p)) →
    ∃ (s' : state) (m' : gmap string ptr),
      forM_ l (sweep_entry now maxLifetime) s = Returns tt s' ∧
      heap s' = heap s ∧
      mutex (memory s') = mutex (memory s) ∧
      sessions (memory s') = Some m' ∧
      (∀ k, m' !! k = if decide (k ∈ l.*1)
                      then m !! k ≫= keep now maxLifetime (heap s)
                      else m !! k) ∧
      (activeSessions (memory s) = wrap64 (Z.of_nat (size m)) →
       activeSessions (memory s') = wrap64 (Z.of_nat (size m'))).
Proof.
  induction l as [|[k p] l IH]; intros s m Hss Hnd Hl.
  - exists s, m. repeat split; try done.
  - rewrite fmap_cons in Hnd. apply NoDup_cons in Hnd as [Hk Hnd].
    destruct (Hl k p) as [Hmk [o Ho]]; [left|].
    change (forM_ ((k, p) :: l) (sweep_entry now maxLifetime) s)
      with (bind (sweep_entry now maxLifetime (k, p))
              (λ _, forM_ l (sweep_entry now maxLifetime)) s).
    unfold bind. rewrite (sweep_entry_run (k, p) s o Ho).
    destruct (int64_add (lastAccessTime o) maxLifetime >? now) eqn:Hcond.
    + match goal with
      | |- context [forM_ l _ ?s1] =>
          destruct (IH s1 (delete k m))
            as (s' & m' & Hrun & Hh & Hmu & Hss' & Hlk & Hc);
            [simpl; by rewrite Hss | done | |]
      end.
      { intros k' p' Hin. destruct (Hl k' p') as [? ?]; [by right|].
        split; [|done]. rewrite lookup_delete_ne; [done|].
        intros ->. apply Hk. apply list_elem_of_fmap. by exists (k', p'). }
      exists s', m'. simpl in *. repeat split; try done.
      * intros k0. rewrite Hlk. destruct (decide (k0 = k)) as [->|Hne].
        -- rewrite decide_False by done. rewrite lookup_delete_eq.
           rewrite decide_True by left. rewrite Hmk. simpl.
           unfold keep, swept. by rewrite Ho, Hcond.
        -- rewrite lookup_delete_ne by done.
           destruct (decide (k0 ∈ l.*1)) as [Hin|Hnin].
           ++ by rewrite decide_True by by right.
           ++ rewrite decide_False; [done|].
              intros [?|?]%elem_of_cons; done.
      * intros Hcnt. apply Hc. rewrite Hcnt.
        unfold int64_sub. rewrite map_size_delete_Some by done.
        assert (size m ≠ 0%nat) as Hsz.
        { intros Hz. apply map_size_empty_inv in Hz. by rewrite Hz in Hmk. }
        replace (wrap64 (Z.of_nat (size m)) - 1)
          with (wrap64 (Z.of_nat (size m)) + (-1)) by lia.
        rewrite wrap64_idemp_l. f_equal. lia.
    + destruct (IH s m) as (s' & m' & Hrun & Hh & Hmu & Hss' & Hlk & Hc);
        [done | done | |].
      { intros k' p' Hin. apply Hl. by right. }
      exists s', m'. repeat split; try done.
      intros k0. rewrite Hlk. destruct (decide (k0 = k)) as [->|Hne].
      * rewrite decide_False by done. rewrite decide_True by left.
        rewrite Hmk. simpl. unfold keep, swept. by rewrite Ho, Hcond.
      * destruct (decide (k0 ∈ l.*1)) as [Hin|Hnin].
        -- by rewrite decide_True by by right.
        -- rewrite decide_False; [done|].
           intros [?|?]%elem_of_cons; done.
Qed.
End Sweep.

Section Terminate.
Import memory_storage.

Lemma TerminateSessionOnExpiration_spec (now maxLifetime : Z) (s : state) :
  mutex (memory s) = false →
  handles_valid s →
  ∃ s',
    TerminateSessionOnExpiration now maxLifetime s = Returns tt s' ∧
    heap s' = heap s ∧
    mutex (memory s') = false ∧
    (∀ k, registered s' k = registered s k ≫= keep now maxLifetime (heap s)) ∧
    (activeSessions (memory s) = wrap64 (entries s) →
     activeSessions (memory s') = wrap64 (entries s')).
Proof.
  destruct s as [h [held c [m|]]]; simpl; intros -> Hv.
  - destruct (sweep_loop now maxLifetime (map_to_list m)
                {| heap := h;
                   memory := {| mutex := true; activeSessions := c;
                                sessions := Some m |} |} m)
      as (s' & m' & Hrun & Hh & Hmu & Hss' & Hlk & Hc).
    + done.
    + apply NoDup_fst_map_to_list.
    + intros k p Hin%elem_of_map_to_list. split; [done|]. by apply (Hv k p).
    + destruct s' as [h' [held' c' ss']]. simpl in *. subst h' held' ss'.
      eexists. split.
      { unfold TerminateSessionOnExpiration, Lock, Unlock. unfold_M.
        unfold set_memory, set_mutex. cbn -[forM_ sweep_entry map_to_list].
        rewrite Hrun. reflexivity. }
      unfold registered, entries. simpl. repeat split; try done.
      intros k. rewrite Hlk. destruct (decide (k ∈ (map_to_list m).*1)) as [|Hn];
        [done|].
      destruct (m !! k) as [p|] eqn:Hmk; [|done].
      exfalso. apply Hn. apply list_elem_of_fmap. exists (k, p).
      split; [done|]. by apply elem_of_map_to_list.
  - eexists. split; [reflexivity|]. by repeat split.
Qed.

(** The test the sweep applies to one registered session. *)
Lemma sweep_session (now maxLifetime : Z) (s : state) (k : string) (p : ptr)
    (o : MemorySession) :
  mutex (memory s) = false →
  handles_valid s →
  registered s k = Some p →
  heap s !! p = Some o →
  ∃ s',
    TerminateSessionOnExpiration now maxLifetime s = Returns tt s' ∧
    registered s' k =
      if int64_add (lastAccessTime o) maxLifetime >? now then None else Some p.
Proof.
  intros Hmu Hv Hk Ho.
  destruct (TerminateSessionOnExpiration_spec now maxLifetime s Hmu Hv)
    as (s' & Hrun & _ & _ & Hlk & _).
  exists s'. split; [done|].
  rewrite Hlk, Hk. simpl. unfold keep, swept. by rewrite Ho.
Qed.

(** What the comparison of the source amounts to when nothing overflows: a
    session whose deadline [T + L] has passed stays, and one whose deadline
    is still ahead is removed. *)
Lemma sweep_keeps_expired (now maxLifetime : Z) (s : state) (k : string)
    (p : ptr) (o : MemorySession) :
  mutex (memory s) = false → handles_valid s →
  registered s k = Some p → heap s !! p = Some o →
  - 2 ^ 63 ≤ lastAccessTime o + maxLifetime < 2 ^ 63 →
  lastAccessTime o + maxLifetime ≤ now →
  ∃ s', TerminateSessionOnExpiration now maxLifetime s = Returns tt s' ∧
        registered s' k = Some p.
Proof.
  intros Hmu Hv Hk Ho Hrange Hle.
  destruct (sweep_session now maxLifetime s k p o) as (s' & Hrun & Hreg);
    try done.
  exists s'. split; [done|]. rewrite Hreg.
  unfold int64_add. rewrite wrap64_small by done.
  destruct (Z.gtb_spec (lastAccessTime o + maxLifetime) now); [lia|done].
Qed.

Lemma sweep_evicts_live (now maxLifetime : Z) (s : state) (k : string)
    (p : ptr) (o : MemorySession) :
  mutex (memory s) = false → handles_valid s →
  registered s k = Some p → heap s !! p = Some o →
  - 2 ^ 63 ≤ lastAccessTime o + maxLifetime < 2 ^ 63 →
  now < lastAccessTime o + maxLifetime →
  ∃ s', TerminateSessionOnExpiration now maxLifetime s = Returns tt s' ∧
        registered s' k = None.
Proof.
  intros Hmu Hv Hk Ho Hrange Hlt.
  destruct (sweep_session now maxLifetime s k p o) as (s' & Hrun & Hreg);
    try done.
  exists s'. split; [done|]. rewrite Hreg.
  unfold int64_add. rewrite wrap64_small by done.
  destruct (Z.gtb_spec (lastAccessTime o + maxLifetime) now); [done|lia].
Qed.
End Terminate.

(** Go leaves the order of a [range] over a map unspecified. In a consistent
    store the sweep gives the same store for every order of the entries. *)
Lemma sweep_any_order (now maxLifetime : Z) (s : memory_storage.state)
    (m : gmap string memory_storage.ptr) (l : list (string * memory_storage.ptr)) :
  memory_storage.sessions (memory_storage.memory s) = Some m →
  handles_valid s →
  memory_storage.activeSessions (memory_storage.memory s)
    = wrap64 (Z.of_nat (size m)) →
  l ≡ₚ map_to_list m →
  forM_ l (memory_storage.sweep_entry now maxLifetime) s
  = forM_ (map_to_list m) (memory_storage.sweep_entry now maxLifetime) s.
Proof.
  intros Hss Hv Hc Hperm.
  assert (∀ k p, (k, p) ∈ map_to_list m →
                 m !! k = Some p ∧ is_Some (memory_storage.heap s !! p)) as Hm.
  { intros k p Hin%elem_of_map_to_list. split; [done|]. apply (Hv k p).
    unfold registered. by rewrite Hss. }
  destruct (sweep_loop now maxLifetime l s m Hss)
    as (s1 & m1 & Hrun1 & Hh1 & Hmu1 & Hss1 & Hlk1 & Hc1).
  { rewrite Hperm. apply NoDup_fst_map_to_list. }
  { intros k p Hin. apply Hm. by rewrite <- Hperm. }
  destruct (sweep_loop now maxLifetime (map_to_list m) s m Hss)
    as (s2 & m2 & Hrun2 & Hh2 & Hmu2 & Hss2 & Hlk2 & Hc2).
  { apply NoDup_fst_map_to_list. }
  { done. }
  rewrite Hrun1, Hrun2. f_equal.
  assert (m1 = m2) as ->.
  { apply map_eq. intros k. rewrite Hlk1, Hlk2.
    destruct (decide (k ∈ l.*1)) as [Hin|Hnin].
    - rewrite decide_True; [done|]. by rewrite <- Hperm.
    - rewrite decide_False; [done|]. by rewrite <- Hperm. }
  specialize (Hc1 Hc). specialize (Hc2 Hc).
  destruct s1 as [h1 [mu1 c1 ss1]], s2 as [h2 [mu2 c2 ss2]]. simpl in *.
  congruence.
Qed.

(** C1. The sweep of the source applies the opposite test. With one session
    last accessed at T = 100 and maxLifetime L = 10: the sweep at
    T + L + 1 = 111 returns with the session still registered, and the sweep
    at T + L - 1 = 109 removes it and brings the counter to 0. *)
Theorem sweep_comparison_inverted :
  (∃ s', memory_storage.TerminateSessionOnExpiration 111 10 (one_session 100)
         = Returns tt s' ∧
         registered s' "a" = Some 0%nat ∧
         memory_storage.activeSessions (memory_storage.memory s') = 1) ∧
  (∃ s', memory_storage.TerminateSessionOnExpiration 109 10 (one_session 100)
         = Returns tt s' ∧
         registered s' "a" = None ∧
         memory_storage.activeSessions (memory_storage.memory s') = 0).
Proof.
  split; eexists; (split; [vm_compute; reflexivity | split; reflexivity]).
Qed.

(** *** The counter and the map *)

Section Counter.
Import memory_storage.

Lemma empty_store_consistent (s : state) : empty_store s → consistent s.
Proof.
  destruct s as [h [held c ss]]. unfold empty_store, consistent. simpl.
  intros (-> & -> & Hss). split; [done|].
  unfold handles_valid, registered, entries. simpl.
  destruct Hss as [->| ->]; simpl; (split; [|done]).
  - intros k p Hk. discriminate Hk.
  - intros k p Hk. by rewrite lookup_empty in Hk.
Qed.

Lemma InitializeSession_consistent (now : Z) (sessionId : string)
    (s s' : state) (session : ptr) :
  consistent s →
  registered s sessionId = None →
  InitializeSession now sessionId s = Returns session s' →
  consistent s'.
Proof.
  intros (Hmu & Hv & Hc) Hfresh Hret.
  apply InitializeSession_Returns in Hret as (m & _ & Hss & -> & ->).
  unfold registered in Hfresh. unfold consistent, handles_valid, registered,
    entries in *. rewrite Hss in *. simpl in *.
  split; [done|]. split.
  - intros k p Hk. destruct (decide (k = sessionId)) as [->|Hne].
    + rewrite lookup_insert_eq in Hk. injection Hk as <-.
      by rewrite list_lookup_middle.
    + rewrite lookup_insert_ne in Hk by done.
      destruct (Hv k p Hk) as [o Ho]. exists o. by apply lookup_app_l_Some.
  - rewrite Hc. unfold int64_add. rewrite wrap64_idemp_l.
    rewrite map_size_insert_None by done. f_equal. lia.
Qed.

Lemma step_consistent (s s' : state) : consistent s → step s s' → consistent s'.
Proof.
  intros Hs (c & Hadm & Hrun). destruct c; simpl in *.
  - unfold_M. destruct (InitializeSession now sessionId s) eqn:Hinit;
      try discriminate.
    injection Hrun as <-. by eapply InitializeSession_consistent.
  - destruct Hs as (Hmu & ?). unfold_M.
    rewrite RetrieveSession_free in Hrun by done. by injection Hrun as <-.
  - unfold_M. by rewrite UpdateSessionLastAccess_blocks in Hrun.
  - unfold_M. by rewrite DestroySession_blocks in Hrun.
  - destruct Hs as (Hmu & Hv & Hc).
    destruct (TerminateSessionOnExpiration_spec now maxLifetime s Hmu Hv)
      as (s1 & Hrun1 & Hh & Hmu1 & Hlk & Hc1).
    rewrite Hrun1 in Hrun. injection Hrun as <-.
    split; [done|]. split; [|by apply Hc1].
    intros k p Hk. rewrite Hlk in Hk. rewrite Hh.
    destruct (registered s k) as [q|] eqn:Hq; [|done]. simpl in Hk.
    unfold keep in Hk. destruct (swept now maxLifetime (heap s) q); [done|].
    injection Hk as <-. by apply (Hv k q).
Qed.

Lemma reachable_consistent (s : state) : reachable s → consistent s.
Proof.
  intros (s0 & Hempty & Hsteps).
  apply empty_store_consistent in Hempty.
  induction Hsteps as [|s1 s2 s3 Hstep _ IH]; [done|].
  apply IH. by eapply step_consistent.
Qed.

(** In a reachable store the sweep and the lookup return, and
    [InitializeSession] returns as soon as the map is allocated: the
    reachable stores are not only the empty ones. *)
Lemma reachable_Terminate_returns (now maxLifetime : Z) (s : state) :
  reachable s →
  ∃ s', step s s' ∧
        TerminateSessionOnExpiration now maxLifetime s = Returns tt s'.
Proof.
  intros (Hmu & Hv & _)%reachable_consistent.
  destruct (TerminateSessionOnExpiration_spec now maxLifetime s Hmu Hv)
    as (s' & Hrun & _).
  exists s'. split; [|done]. by exists (CallTerminate now maxLifetime).
Qed.

Lemma reachable_Initialize_returns (now : Z) (sessionId : string) (s : state) :
  reachable s →
  registered s sessionId = None →
  sessions (memory s) ≠ None →
  ∃ session s', step s s' ∧
                InitializeSession now sessionId s = Returns session s'.
Proof.
  intros (Hmu & _)%reachable_consistent Hfresh Hss.
  destruct (sessions (memory s)) as [m|] eqn:Hm; [|done].
  eexists _, _. split; [|by apply (InitializeSession_allocated _ _ _ m)].
  exists (CallInitialize now sessionId). split; [done|]. simpl. unfold_M.
  by rewrite (InitializeSession_allocated _ _ _ m).
Qed.

(** The counter invariant along completed calls. In every store reached
    from an empty store by completed calls of
    InitializeSession (with an identifier that is not registered),
    RetrieveSession, UpdateSessionLastAccess, DestroySession and
    TerminateSessionOnExpiration, the activeSessions counter equals the
    number of entries of the sessions map. The counter is an int64, so the
    number of entries is taken below 2^63, which any map in memory is. *)
Lemma counter_equals_entries (s : state) :
  reachable s →
  entries s < 2 ^ 63 →
  activeSessions (memory s) = entries s.
Proof.
  intros (_ & _ & Hc)%reachable_consistent Hbound.
  rewrite Hc. apply wrap64_small. unfold entries in *. lia.
Qed.
End Counter.

Lemma counter_equals_entries_witness :
  reachable (one_session 5) ∧
  memory_storage.activeSessions (memory_storage.memory (one_session 5)) = 1.
Proof.
  assert (reachable (one_session 5)) as Hreach.
  { exists allocated_state. split.
    - unfold empty_store. simpl. auto.
    - apply rtc_once. exists (CallInitialize 5 "a"). split; reflexivity. }
  split; [exact Hreach|].
  apply (counter_equals_entries (one_session 5) Hreach). vm_compute. reflexivity.
Defined.

(** C4. The counter does not always equal the number of entries. The
    zero-value store is an empty store; InitializeSession, with an identifier
    that is not registered, increments the counter and then panics on the
    nil sessions map. The deferred Unlock frees the mutex, and the store the
    call leaves behind has counter 1 and no entry. *)
Theorem counter_exceeds_entries_after_panic (now : Z) (sessionId : string) :
  ∃ s',
    empty_store zero_state ∧
    admissible (CallInitialize now sessionId) zero_state ∧
    memory_storage.InitializeSession now sessionId zero_state
      = Panics nil_map_write s' ∧
    left_behind s' ∧
    memory_storage.mutex (memory_storage.memory s') = false ∧
    memory_storage.activeSessions (memory_storage.memory s') = 1 ∧
    entries s' = 0.
Proof.
  assert (empty_store zero_state) as Hempty by (unfold empty_store; simpl; auto).
  eexists. split; [exact Hempty|]. split; [done|].
  split; [by apply InitializeSession_nil|].
  split; [|done].
  exists zero_state. split; [exact Hempty|]. apply rtc_once.
  exists (CallInitialize now sessionId). split; [done|].
  right. exists nil_map_write. simpl. unfold_M.
  by rewrite InitializeSession_nil.
Qed.

(** *** Sessions handed out by the store *)

Section Handles.
Import memory_storage.

Lemma load_fresh (now : Z) (sessionId : string) (h : list MemorySession)
    (m : MemoryStorage) :
  load (length h) {| heap := h ++ [fresh_session now sessionId]; memory := m |}
  = Returns (fresh_session now sessionId)
      {| heap := h ++ [fresh_session now sessionId]; memory := m |}.
Proof. unfold load. simpl. by rewrite list_lookup_middle. Qed.

(** With the map allocated, the logic of the two methods is the one the
    specification describes: the session just initialized is the one
    retrieved, it carries the identifier, and every key that can be hashed
    reads as nil. *)
Lemma InitializeSession_then_RetrieveSession (now : Z) (sessionId : string)
    (s : state) (m : gmap string ptr) :
  mutex (memory s) = false →
  sessions (memory s) = Some m →
  ∃ session s',
    InitializeSession now sessionId s = Returns session s' ∧
    RetrieveSession sessionId s' = Returns (Ok session) s' ∧
    GetSessionId session s' = Returns sessionId s' ∧
    ∀ key, hashable key = true → GetValue session key s' = Returns ANil s'.
Proof.
  intros Hmu Hss. eexists _, _.
  split; [by apply (InitializeSession_allocated _ _ _ m)|].
  split; [|split].
  - rewrite RetrieveSession_free by done.
    unfold registered. simpl. by rewrite lookup_insert_eq.
  - unfold GetSessionId. unfold_M. by rewrite load_fresh.
  - intros key Hkey. unfold GetValue. unfold_M. rewrite load_fresh.
    by destruct key as [| | | |[]| |].
Qed.

(** C2. Whatever the store, the identifier, the key and the value: on the
    session that InitializeSession returned, SetValue does not return a nil
    error. The value map of the session was never allocated, so the
    assignment panics, and the store is left as it was. *)
Theorem SetValue_on_initialized_session_panics (now : Z) (sessionId : string)
    (s s' : state) (session : ptr) (key val : any) :
  InitializeSession now sessionId s = Returns session s' →
  SetValue session key val s' = Panics nil_map_write s'.
Proof.
  intros (m & _ & _ & -> & ->)%InitializeSession_Returns.
  unfold SetValue. unfold_M. by rewrite load_fresh.
Qed.

(** C5. On the zero-value store, which is the one registered under
    "memory", InitializeSession does not return: the sessions map is nil
    and the assignment to it panics, after the counter was incremented. *)
Theorem InitializeSession_on_zero_store_panics (now : Z) (sessionId : string) :
  ∃ s', InitializeSession now sessionId zero_state = Panics nil_map_write s' ∧
        activeSessions (memory s') = 1 ∧
        sessions (memory s') = None.
Proof. eexists. split; [by apply InitializeSession_nil|]. by split. Qed.

(** [RetrieveSession] does what C6 says of it. *)
Lemma RetrieveSession_SessionNotExist (sessionId : string) (s : state) :
  mutex (memory s) = false →
  (registered s sessionId = None ↔
   RetrieveSession sessionId s = Returns (Err SessionNotExist) s) ∧
  ∃ r, RetrieveSession sessionId s = Returns r s.
Proof.
  intros Hmu. rewrite RetrieveSession_free by done. split; [|by eexists].
  destruct (registered s sessionId); split; intros Heq;
    try done; by injection Heq.
Qed.

(** C6. UpdateSessionLastAccess and DestroySession never return, whether the
    identifier is registered or not: each takes the mutex of the store and
    then calls RetrieveSession, which blocks on the same mutex. No
    SessionNotExist error is ever delivered by them. *)
Theorem Update_and_Destroy_never_return (now : Z) (sessionId : string)
    (s : state) :
  UpdateSessionLastAccess now sessionId s = Blocks ∧
  DestroySession sessionId s = Blocks.
Proof.
  split; [apply UpdateSessionLastAccess_blocks | apply DestroySession_blocks].
Qed.

(** C10. With "a" registered and last accessed at 100, the call
    UpdateSessionLastAccess("a") at time 200 does not return: there is no
    state after the call, and the access time is not refreshed. *)
Theorem UpdateSessionLastAccess_registered_blocks :
  registered (one_session 100) "a" = Some 0%nat ∧
  UpdateSessionLastAccess 200 "a" (one_session 100) = Blocks.
Proof. split; reflexivity. Qed.
End Handles.

Lemma SetValue_on_initialized_session_panics_witness :
  memory_storage.SetValue 0%nat (AString "username") (AString "zyrx")
    (one_session 7)
  = Panics nil_map_write (one_session 7).
Proof.
  apply (SetValue_on_initialized_session_panics 7 "a" allocated_state
           (one_session 7) 0%nat (AString "username") (AString "zyrx")).
  reflexivity.
Defined.

(** ** The session manager over the in-memory store *)

Section ManagerOnMemory.
Import wsm_backup.

Lemma eqb_nonempty (v : string) : v ≠ EmptyString → String.eqb v "" = false.
Proof. intros Hv. by apply String.eqb_neq. Qed.

(** The branch of StartSession for a request that carries a usable cookie:
    the store is asked for the unescaped identifier and nothing is written. *)
Lemma StartSession_with_cookie (entropy : list Byte.byte) (now : Z)
    (request : list Cookie) (w : world memory_storage.state)
    (cookie : Cookie) (sessionId : string) :
  idle w →
  cookie_of w request = Some cookie →
  Value cookie ≠ EmptyString →
  net_url.QueryUnescape (Value cookie) = Ok sessionId →
  StartSession entropy now request w =
  Returns (match registered (store_of w) sessionId with
           | Some session => Ok session
           | None => Err SessionNotExist
           end) w.
Proof.
  destruct w as [[held name sm L] resp].
  unfold idle, cookie_of, store_of. simpl.
  intros [-> Hmu] Hcookie Hne Hun.
  unfold StartSession, Lock, Unlock, onStorage, set_manager, set_mutex,
    set_storageMedia. unfold_M. simpl.
  rewrite Hcookie, (eqb_nonempty _ Hne), Hun.
  rewrite RetrieveSession_free by done. simpl.
  by destruct (registered sm sessionId).
Qed.

(** The branch for a request without a cookie of the manager's name, over
    a store whose map is allocated. *)
Lemma StartSession_without_cookie (entropy : list Byte.byte) (now : Z)
    (request : list Cookie) (w : world memory_storage.state)
    (m : gmap string memory_storage.ptr) :
  idle w →
  memory_storage.sessions (memory_storage.memory (store_of w)) = Some m →
  cookie_of w request = None →
  ∃ w1 cookie,
    StartSession entropy now request w
      = Returns (Ok (length (memory_storage.heap (store_of w)))) w1 ∧
    idle w1 ∧
    cookieName (manager w1) = cookieName (manager w) ∧
    response w1 = response w ++ [cookie] ∧
    Name cookie = cookieName (manager w) ∧
    Value cookie = net_url.QueryEscape (generateUniqueSessionID entropy) ∧
    registered (store_of w1) (generateUniqueSessionID entropy)
      = Some (length (memory_storage.heap (store_of w))).
Proof.
  destruct w as [[held name sm L] resp].
  unfold idle, cookie_of, store_of. simpl.
  intros [-> Hmu] Hss Hcookie.
  eexists _, _. split.
  { unfold StartSession, Lock, Unlock, onStorage, set_manager, set_mutex,
      set_storageMedia, SetCookie. unfold_M. simpl.
    rewrite Hcookie.
    rewrite (InitializeSession_allocated _ _ _ m) by done. simpl.
    reflexivity. }
  simpl. unfold registered. simpl. rewrite lookup_insert_eq.
  by repeat split.
Qed.

Lemma generated_id_escaped_nonempty (entropy : list Byte.byte) :
  (32 ≤ length entropy)%nat →
  net_url.QueryEscape (generateUniqueSessionID entropy) ≠ EmptyString.
Proof.
  intros Hlen. unfold generateUniqueSessionID, net_url.QueryEscape.
  destruct (Nat.ltb_spec (length entropy) 32) as [?|_]; [lia|].
  destruct (EncodeToString_padded 10 (take 32 entropy)) as [t Ht].
  { rewrite length_take. lia. }
  rewrite Ht, escape_app. intros Heq.
  apply (f_equal String.length) in Heq.
  rewrite string_app_length in Heq. simpl in Heq. lia.
Qed.

(** The round trip of C7 inside the manager: the cookie that StartSession
    writes for a new session leads the next StartSession back to that
    session, and nothing more is written. *)
Lemma StartSession_again_same_session (entropy : list Byte.byte) (now now' : Z)
    (request : list Cookie) (w : world memory_storage.state)
    (m : gmap string memory_storage.ptr) :
  (32 ≤ length entropy)%nat →
  idle w →
  memory_storage.sessions (memory_storage.memory (store_of w)) = Some m →
  cookie_of w request = None →
  ∃ session w1 cookie,
    StartSession entropy now request w = Returns (Ok session) w1 ∧
    response w1 = response w ++ [cookie] ∧
    ∀ entropy', StartSession entropy' now' [cookie] w1 = Returns (Ok session) w1.
Proof.
  intros Hlen Hidle Hss Hcookie.
  destruct (StartSession_without_cookie entropy now request w m Hidle Hss Hcookie)
    as (w1 & cookie & Hrun & Hidle1 & Hname1 & Hresp & Hname & Hvalue & Hreg).
  eexists _, w1, cookie. split; [exact Hrun|]. split; [done|].
  intros entropy'.
  rewrite (StartSession_with_cookie entropy' now' [cookie] w1 cookie
             (generateUniqueSessionID entropy)); try done.
  - by rewrite Hreg.
  - unfold cookie_of, Request_Cookie. simpl.
    rewrite Hname1, Hname. by rewrite bool_decide_true.
  - rewrite Hvalue. by apply generated_id_escaped_nonempty.
  - rewrite Hvalue. apply QueryUnescape_QueryEscape.
Qed.

(** C8. StartSession, called between calls with a request whose cookie has
    a non-empty value that unescapes to an identifier not registered in the
    store, returns the SessionNotExist error and leaves everything as it
    was: no cookie is written to the response and the store, with its
    sessions and its counter, is unchanged. *)
Theorem StartSession_unknown_id (entropy : list Byte.byte) (now : Z)
    (request : list Cookie) (w : world memory_storage.state)
    (cookie : Cookie) (sessionId : string) :
  idle w →
  cookie_of w request = Some cookie →
  Value cookie ≠ EmptyString →
  net_url.QueryUnescape (Value cookie) = Ok sessionId →
  registered (store_of w) sessionId = None →
  StartSession entropy now request w = Returns (Err SessionNotExist) w.
Proof.
  intros Hidle Hcookie Hne Hun Hreg.
  rewrite (StartSession_with_cookie entropy now request w cookie sessionId)
    by done.
  by rewrite Hreg.
Qed.

(** On the manager the documented use builds, over the zero-value store,
    the first StartSession without a cookie panics inside
    InitializeSession and writes no cookie. *)
Lemma StartSession_on_zero_store_panics :
  ∃ w', StartSession zero_entropy 100 [] (world_of zero_state)
        = Panics nil_map_write w' ∧
        response w' = [].
Proof. eexists. split; [vm_compute; reflexivity | reflexivity]. Qed.

(** The part of C3 that the code has: without a cookie of the manager's
    name, or with an empty one, EndSession returns and changes nothing,
    whatever the storage media is. *)
Lemma EndSession_without_cookie {SM Sess : Type}
    `{!abstract_definition.StorageMedia SM Sess}
    (now : Z) (request : list Cookie) (w : world SM) :
  (∀ cookie, Request_Cookie request (cookieName (manager w)) = Some cookie →
             Value cookie = EmptyString) →
  EndSession now request w = Returns tt w.
Proof.
  intros Hc. unfold EndSession. unfold_M.
  destruct (Request_Cookie request (cookieName (manager w))) as [cookie|];
    [|done].
  by rewrite (Hc cookie eq_refl).
Qed.

(** With a non-empty cookie, EndSession over the in-memory store never
    returns: DestroySession blocks. *)
Lemma EndSession_with_cookie_blocks (now : Z) (request : list Cookie)
    (w : world memory_storage.state) (cookie : Cookie) :
  cookie_of w request = Some cookie →
  Value cookie ≠ EmptyString →
  EndSession now request w = Blocks.
Proof.
  destruct w as [[held name sm L] resp]. unfold cookie_of. simpl.
  intros Hcookie Hne.
  unfold EndSession, Lock, Unlock, onStorage, set_manager, set_mutex,
    set_storageMedia. unfold_M. simpl.
  rewrite Hcookie, (eqb_nonempty _ Hne).
  destruct held; [done|]. simpl.
  by rewrite DestroySession_blocks.
Qed.

(** C3. A run of the documented use. StartSession without a cookie, on an
    allocated store, creates a session and writes a cookie. EndSession with
    that cookie does not return, so it neither removes the session nor
    writes the expired cookie. The identifier it hands to DestroySession is
    the raw cookie value, which still has the base64 padding escaped and is
    not the identifier the session is registered under. *)
Theorem EndSession_after_StartSession :
  ∃ session w1 cookie,
    StartSession zero_entropy 100 [] (world_of allocated_state)
      = Returns (Ok session) w1 ∧
    response w1 = [cookie] ∧
    registered (store_of w1) (generateUniqueSessionID zero_entropy)
      = Some session ∧
    Value cookie ≠ generateUniqueSessionID zero_entropy ∧
    registered (store_of w1) (Value cookie) = None ∧
    EndSession 200 [cookie] w1 = Blocks.
Proof.
  eexists _, _, _. split; [vm_compute; reflexivity|].
  split; [reflexivity|].
  split; [vm_compute; reflexivity|].
  split; [apply (escaped_id_differs zero_entropy); vm_compute; lia|].
  split; [vm_compute; reflexivity|].
  vm_compute. reflexivity.
Qed.
End ManagerOnMemory.

Lemma StartSession_unknown_id_witness :
  wsm_backup.StartSession zero_entropy 100
    [{| wsm_backup.Name := "sid"; wsm_backup.Value := "abc%3D";
        wsm_backup.Path := ""; wsm_backup.HttpOnly := false;
        wsm_backup.MaxAge := 0; wsm_backup.Expires := None |}]
    (world_of (one_session 5))
  = Returns (Err SessionNotExist) (world_of (one_session 5)).
Proof.
  apply (StartSession_unknown_id zero_entropy 100 _ (world_of (one_session 5))
           {| wsm_backup.Name := "sid"; wsm_backup.Value := "abc%3D";
              wsm_backup.Path := ""; wsm_backup.HttpOnly := false;
              wsm_backup.MaxAge := 0; wsm_backup.Expires := None |} "abc=").
  - split; reflexivity.
  - reflexivity.
  - simpl. discriminate.
  - reflexivity.
  - reflexivity.
Defined.

(** ** Beyond the claims: the methods of a session *)

Section SessionMethods.
Import memory_storage.

Lemma load_Some (p : ptr) (s : state) (o : MemorySession) :
  heap s !! p = Some o → load p s = Returns o s.
Proof. intros Ho. unfold load. by rewrite Ho. Qed.

Lemma load_None (p : ptr) (s : state) :
  heap s !! p = None → load p s = Panics nil_deref s.
Proof. intros Ho. unfold load. by rewrite Ho. Qed.

Lemma GetValue_run (p : ptr) (key : any) (s : state) (o : MemorySession) :
  heap s !! p = Some o →
  GetValue p key s =
  match ifacemap_lookup (value o) key with
  | inl msg => Panics msg s
  | inr v => Returns (default ANil v) s
  end.
Proof.
  intros Ho. unfold GetValue. unfold_M. rewrite (load_Some p s o) by done.
  by destruct (ifacemap_lookup (value o) key).
Qed.

Lemma SetValue_run (p : ptr) (key val : any) (s : state) (o : MemorySession) :
  heap s !! p = Some o →
  SetValue p key val s =
  match ifacemap_store (value o) key val with
  | inl msg => Panics msg s
  | inr v' => Returns None {| heap := <[p := set_value v' o]> (heap s);
                              memory := memory s |}
  end.
Proof.
  intros Ho. unfold SetValue, store. unfold_M.
  rewrite (load_Some p s o) by done.
  by destruct (ifacemap_store (value o) key val).
Qed.

Lemma DeleteValue_run (p : ptr) (key : any) (s : state) (o : MemorySession) :
  heap s !! p = Some o →
  DeleteValue p key s =
  match ifacemap_delete (value o) key with
  | inl msg => Panics msg s
  | inr v' => Returns None {| heap := <[p := set_value v' o]> (heap s);
                              memory := memory s |}
  end.
Proof.
  intros Ho. unfold DeleteValue, store. unfold_M.
  rewrite (load_Some p s o) by done.
  by destruct (ifacemap_delete (value o) key).
Qed.

Lemma hashable_map_key (key : any) :
  hashable key = true → map_key key = NeverFound ∨ ∃ k, map_key key = Found k.
Proof. destruct key as [| | | |[]| |]; simpl; eauto; discriminate. Qed.

Lemma set_value_same (o : MemorySession) : set_value (value o) o = o.
Proof. by destruct o. Qed.

(** X1. On a session whose value map is allocated, and for a key that can be
    hashed and is equal to itself (any key but a NaN or a value of a slice,
    map or function type), SetValue returns a nil error, and afterwards
    GetValue gives the stored value for that key and what it gave before for
    every hashable key that is a different map key. The identifier of the
    session, the other session objects and the store (mutex, counter,
    sessions map) are left as they were. *)
Theorem SetValue_then_GetValue (p : ptr) (key val k : any) (s : state)
    (o : MemorySession) (vm : ifacemap) :
  heap s !! p = Some o →
  value o = Some vm →
  map_key key = Found k →
  ∃ s',
    SetValue p key val s = Returns None s' ∧
    GetValue p key s' = Returns val s' ∧
    (∀ key', hashable key' = true → map_key key' ≠ Found k →
       ∃ v, GetValue p key' s = Returns v s ∧ GetValue p key' s' = Returns v s') ∧
    GetSessionId p s' = Returns (id o) s' ∧
    memory s' = memory s ∧
    (∀ q, q ≠ p → heap s' !! q = heap s !! q).
Proof.
  intros Ho Hvm Hk.
  assert (p < length (heap s))%nat as Hlt by by eapply lookup_lt_Some.
  set (o' := set_value (Some {| found := <[k := val]> (found vm);
                                lost := lost vm |}) o).
  exists {| heap := <[p := o']> (heap s); memory := memory s |}.
  assert (<[p := o']> (heap s) !! p = Some o') as Ho'
    by by apply list_lookup_insert_eq.
  split; [|split; [|split; [|split; [|split]]]].
  - rewrite (SetValue_run p key val s o) by done.
    unfold ifacemap_store. by rewrite Hvm, Hk.
  - rewrite (GetValue_run p key _ o') by done.
    unfold ifacemap_lookup. rewrite Hk. simpl. by rewrite lookup_insert_eq.
  - intros key' Hh Hne.
    rewrite (GetValue_run p key' s o), (GetValue_run p key' _ o') by done.
    unfold ifacemap_lookup. simpl. rewrite Hvm.
    destruct (hashable_map_key key' Hh) as [->|[k' Hk']].
    + by eexists.
    + rewrite Hk'. eexists. split; [done|].
      rewrite lookup_insert_ne; [done|]. intros ->. by apply Hne.
  - unfold GetSessionId. unfold_M. by rewrite (load_Some p _ o').
  - done.
  - intros q Hq. simpl. by apply list_lookup_insert_ne.
Qed.

(** X2. For a key that can be hashed, DeleteValue never fails on a valid
    handle, whether the key is there or not and whether the value map is
    allocated or nil. Afterwards GetValue gives nil for the key and what it
    gave before for every hashable key that is a different map key; on a
    session whose value map is nil the whole state is unchanged. *)
Theorem DeleteValue_then_GetValue (p : ptr) (key : any) (s : state)
    (o : MemorySession) :
  heap s !! p = Some o →
  hashable key = true →
  ∃ s',
    DeleteValue p key s = Returns None s' ∧
    GetValue p key s' = Returns ANil s' ∧
    (∀ key', hashable key' = true → map_key key' ≠ map_key key →
       ∃ v, GetValue p key' s = Returns v s ∧ GetValue p key' s' = Returns v s') ∧
    memory s' = memory s ∧
    (value o = None → s' = s).
Proof.
  intros Ho Hh.
  assert (p < length (heap s))%nat as Hlt by by eapply lookup_lt_Some.
  assert (∀ o', <[p := o']> (heap s) !! p = Some o') as Hat
    by (intros o'; by apply list_lookup_insert_eq).
  rewrite (DeleteValue_run p key s o) by done.
  destruct (hashable_map_key key Hh) as [Hk|[k Hk]].
  - unfold ifacemap_delete. rewrite Hk, set_value_same.
    rewrite list_insert_id by done.
    exists s. replace {| heap := heap s; memory := memory s |} with s
      by by destruct s.
    split; [done|]. split; [|split; [|split]]; try done.
    + rewrite (GetValue_run p key s o) by done.
      unfold ifacemap_lookup. by rewrite Hk.
    + intros key' Hh' _. rewrite (GetValue_run p key' s o) by done.
      unfold ifacemap_lookup.
      destruct (hashable_map_key key' Hh') as [->|[k' ->]]; by eexists.
  - unfold ifacemap_delete. rewrite Hk.
    set (o' := set_value
                 match value o with
                 | Some m => Some {| found := delete k (found m); lost := lost m |}
                 | None => None
                 end o).
    set (s' := {| heap := <[p := o']> (heap s); memory := memory s |}).
    assert (heap s' !! p = Some o') as Ho' by apply Hat.
    exists s'. split; [reflexivity|]. split; [|split; [|split]].
    + rewrite (GetValue_run p key s' o' Ho').
      unfold ifacemap_lookup. rewrite Hk. simpl.
      destruct (value o) as [vm|]; simpl; [|done]. by rewrite lookup_delete_eq.
    + intros key' Hh' Hne.
      rewrite (GetValue_run p key' s o Ho), (GetValue_run p key' s' o' Ho').
      unfold ifacemap_lookup. simpl.
      destruct (hashable_map_key key' Hh') as [->|[k' Hk']]; [by eexists|].
      rewrite Hk'. eexists. split; [done|].
      destruct (value o) as [vm|]; simpl; [|done].
      rewrite lookup_delete_ne; [done|]. intros ->. apply Hne. congruence.
    + done.
    + intros Hnil. subst s' o'. rewrite Hnil.
      destruct s as [h m], o as [i t v]. simpl in *. subst v.
      f_equal. by apply list_insert_id.
Qed.

(** X24. Keys that are not ordinary map keys. On a session whose value map
    is allocated, SetValue with a NaN key returns a nil error and keeps the
    value in the map, but GetValue with a NaN key gives nil and every
    hashable key reads as before: the value is never found again. SetValue
    with a key of a slice, map or function type panics on hashing the key
    and changes nothing. GetValue and DeleteValue with such a key panic on
    every valid handle, also when the value map is nil. *)
Theorem unusual_keys (p : ptr) (val : any) (ty : string) (s : state)
    (o : MemorySession) (vm : ifacemap) :
  heap s !! p = Some o →
  value o = Some vm →
  (∃ s',
     SetValue p (AFloat64 S754_nan) val s = Returns None s' ∧
     heap s' !! p = Some (set_value (Some {| found := found vm;
                                             lost := lost vm ++ [val] |}) o) ∧
     ∀ key', hashable key' = true →
       ∃ v, GetValue p key' s = Returns v s ∧ GetValue p key' s' = Returns v s' ∧
            (key' = AFloat64 S754_nan → v = ANil)) ∧
  SetValue p (AUnhashable ty) val s = Panics (unhashable_key ty) s ∧
  (∀ q oq, heap s !! q = Some oq →
     GetValue q (AUnhashable ty) s = Panics (unhashable_key ty) s ∧
     DeleteValue q (AUnhashable ty) s = Panics (unhashable_key ty) s).
Proof.
  intros Ho Hvm.
  assert (p < length (heap s))%nat as Hlt by by eapply lookup_lt_Some.
  split; [|split].
  - set (o' := set_value (Some {| found := found vm; lost := lost vm ++ [val] |}) o).
    set (s' := {| heap := <[p := o']> (heap s); memory := memory s |}).
    assert (heap s' !! p = Some o') as Ho'
      by (simpl; by apply list_lookup_insert_eq).
    exists s'. split.
    { rewrite (SetValue_run p _ val s o) by done.
      unfold ifacemap_store. rewrite Hvm. reflexivity. }
    split; [done|].
    intros key' Hh.
    rewrite (GetValue_run p key' s o Ho), (GetValue_run p key' s' o' Ho').
    unfold ifacemap_lookup. simpl. rewrite Hvm.
    destruct (hashable_map_key key' Hh) as [Hk|[k' Hk]]; rewrite Hk.
    + by eexists.
    + eexists. split; [done|]. split; [done|]. intros ->. discriminate Hk.
  - rewrite (SetValue_run p _ val s o) by done.
    unfold ifacemap_store. by rewrite Hvm.
  - intros q oq Hq. split.
    + by rewrite (GetValue_run q _ s oq).
    + by rewrite (DeleteValue_run q _ s oq).
Qed.
End SessionMethods.

Lemma SetValue_then_GetValue_witness :
  ∃ s',
    memory_storage.SetValue 0%nat (AString "username") (AString "zyrx")
      (with_values ∅) = Returns None s' ∧
    memory_storage.GetValue 0%nat (AString "username") s'
      = Returns (AString "zyrx") s'.
Proof.
  destruct (SetValue_then_GetValue 0%nat (AString "username") (AString "zyrx")
              (AString "username") (with_values ∅) _ _ eq_refl eq_refl eq_refl)
    as (s' & H1 & H2 & _).
  exists s'. by split.
Defined.

Lemma DeleteValue_then_GetValue_witness :
  ∃ s',
    memory_storage.DeleteValue 0%nat (AString "username") (one_session 3)
      = Returns None s' ∧
    memory_storage.GetValue 0%nat (AString "username") s' = Returns ANil s'.
Proof.
  destruct (DeleteValue_then_GetValue 0%nat (AString "username")
              (one_session 3) _ eq_refl eq_refl) as (s' & H1 & H2 & _).
  exists s'. by split.
Defined.

Lemma unusual_keys_witness :
  memory_storage.SetValue 0%nat (AUnhashable "[]int") (AInt 1) (with_values ∅)
  = Panics (unhashable_key "[]int") (with_values ∅).
Proof.
  destruct (unusual_keys 0%nat (AInt 1) "[]int" (with_values ∅) _ _
              eq_refl eq_refl) as (_ & H & _).
  exact H.
Defined.

(** ** Beyond the claims: InitializeSession *)

Section Initialize.
Import memory_storage.

Lemma one_session_reachable (t : Z) : reachable (one_session t).
Proof.
  exists allocated_state. split.
  - unfold empty_store. simpl. auto.
  - apply rtc_once. exists (CallInitialize t "a"). split; reflexivity.
Qed.

(** X3. A call of InitializeSession that returns gives a handle that was not
    in use, registers it under the identifier and sets the access time to
    the time of the call; every other identifier is registered as before and
    every session object that existed is unchanged. The counter goes up by
    one in int64 arithmetic. *)
Theorem InitializeSession_frame (now : Z) (sessionId : string) (s s' : state)
    (session : ptr) :
  InitializeSession now sessionId s = Returns session s' →
  heap s !! session = None ∧
  heap s' !! session = Some (fresh_session now sessionId) ∧
  registered s' sessionId = Some session ∧
  (∀ other, other ≠ sessionId → registered s' other = registered s other) ∧
  (∀ q o, heap s !! q = Some o → heap s' !! q = Some o) ∧
  activeSessions (memory s') = int64_add (activeSessions (memory s)) 1.
Proof.
  intros (m & Hmu & Hss & -> & ->)%InitializeSession_Returns.
  unfold registered. simpl. rewrite Hss. simpl.
  repeat split.
  - by apply lookup_ge_None_2.
  - by apply list_lookup_middle.
  - by rewrite lookup_insert_eq.
  - intros other Hne. by rewrite lookup_insert_ne.
  - intros q o Hq. by apply lookup_app_l_Some.
Qed.

(** X4. InitializeSession does not look whether the identifier is taken. In
    a reachable store, a call with a registered identifier returns a new
    session under that identifier; the session registered before stays
    allocated but can no longer be retrieved, the number of entries is the
    same, and the counter is one more than the number of entries. *)
Theorem InitializeSession_registered_id (now : Z) (sessionId : string)
    (s : state) (p : ptr) :
  reachable s →
  registered s sessionId = Some p →
  entries s + 1 < 2 ^ 63 →
  ∃ session s',
    InitializeSession now sessionId s = Returns session s' ∧
    session ≠ p ∧
    registered s' sessionId = Some session ∧
    heap s' !! p = heap s !! p ∧
    entries s' = entries s ∧
    activeSessions (memory s') = entries s' + 1.
Proof.
  intros (Hmu & Hv & Hc)%reachable_consistent Hreg Hbound.
  destruct (Hv sessionId p Hreg) as [o Ho].
  unfold registered, entries in *.
  destruct (sessions (memory s)) as [m|] eqn:Hss; [|done]. simpl in *.
  eexists _, _. split; [by apply (InitializeSession_allocated _ _ _ m)|].
  simpl. repeat split.
  - apply lookup_lt_Some in Ho. lia.
  - by rewrite lookup_insert_eq.
  - rewrite Ho. by apply lookup_app_l_Some.
  - by rewrite map_size_insert_Some.
  - rewrite map_size_insert_Some by done. rewrite Hc.
    unfold int64_add. rewrite wrap64_idemp_l. apply wrap64_small. lia.
Qed.

(** X6. A call of InitializeSession on a store whose sessions map is nil
    panics, and the deferred Unlock has run: the mutex is free again, the
    counter has been incremented although nothing is registered, and a
    following RetrieveSession returns SessionNotExist instead of blocking. *)
Theorem InitializeSession_panic_releases_mutex (now : Z) (sessionId other : string)
    (s : state) :
  mutex (memory s) = false →
  sessions (memory s) = None →
  ∃ s',
    InitializeSession now sessionId s = Panics nil_map_write s' ∧
    mutex (memory s') = false ∧
    sessions (memory s') = None ∧
    activeSessions (memory s') = int64_add (activeSessions (memory s)) 1 ∧
    RetrieveSession other s' = Returns (Err SessionNotExist) s'.
Proof.
  intros Hmu Hss. eexists. split; [by apply InitializeSession_nil|].
  split; [done|]. split; [done|]. split; [done|].
  by rewrite RetrieveSession_free.
Qed.
End Initialize.

Lemma InitializeSession_frame_witness :
  memory_storage.heap allocated_state !! 0%nat = None ∧
  memory_storage.heap (one_session 7) !! 0%nat = Some (fresh_session 7 "a") ∧
  registered (one_session 7) "a" = Some 0%nat ∧
  (∀ other, other ≠ "a" →
     registered (one_session 7) other = registered allocated_state other) ∧
  (∀ q o, memory_storage.heap allocated_state !! q = Some o →
          memory_storage.heap (one_session 7) !! q = Some o) ∧
  memory_storage.activeSessions (memory_storage.memory (one_session 7))
  = int64_add (memory_storage.activeSessions
                 (memory_storage.memory allocated_state)) 1.
Proof.
  apply (InitializeSession_frame 7 "a" allocated_state (one_session 7) 0%nat).
  reflexivity.
Defined.

Lemma InitializeSession_registered_id_witness :
  ∃ session s',
    memory_storage.InitializeSession 9 "a" (one_session 7) = Returns session s' ∧
    session ≠ 0%nat ∧
    registered s' "a" = Some session ∧
    memory_storage.heap s' !! 0%nat = memory_storage.heap (one_session 7) !! 0%nat ∧
    entries s' = entries (one_session 7) ∧
    memory_storage.activeSessions (memory_storage.memory s') = entries s' + 1.
Proof.
  apply (InitializeSession_registered_id 9 "a" (one_session 7) 0%nat).
  - apply one_session_reachable.
  - reflexivity.
  - vm_compute. reflexivity.
Defined.

Lemma InitializeSession_panic_releases_mutex_witness :
  ∃ s',
    memory_storage.InitializeSession 5 "a" zero_state = Panics nil_map_write s' ∧
    memory_storage.mutex (memory_storage.memory s') = false ∧
    memory_storage.sessions (memory_storage.memory s') = None ∧
    memory_storage.activeSessions (memory_storage.memory s')
    = int64_add (memory_storage.activeSessions
                   (memory_storage.memory zero_state)) 1 ∧
    memory_storage.RetrieveSession "b" s' = Returns (Err SessionNotExist) s'.
Proof.
  apply (InitializeSession_panic_releases_mutex 5 "a" "b" zero_state);
    reflexivity.
Defined.

Section InitializeMany.
Import memory_storage.

Lemma wrap64_wrap64 (z : Z) : wrap64 (wrap64 z) = wrap64 z.
Proof.
  replace (wrap64 z) with (wrap64 z + 0) at 1 by lia.
  rewrite wrap64_idemp_l. f_equal. lia.
Qed.

Lemma run_calls_cons (c : call) (cs : list call) (s : state) :
  run_calls (c :: cs) s =
  match run c s with
  | Returns _ s1 => run_calls cs s1
  | Panics msg s1 => Panics msg s1
  | Blocks => Blocks
  end.
Proof. reflexivity. Qed.

Lemma run_CallInitialize (now : Z) (sessionId : string) (s : state)
    (m : gmap string ptr) :
  mutex (memory s) = false →
  sessions (memory s) = Some m →
  run (CallInitialize now sessionId) s =
  Returns tt
    {| heap := heap s ++ [fresh_session now sessionId];
       memory := {| mutex := false;
                    activeSessions := int64_add (activeSessions (memory s)) 1;
                    sessions := Some (<[sessionId := length (heap s)]> m) |} |}.
Proof.
  intros Hmu Hss. simpl. unfold_M.
  by rewrite (InitializeSession_allocated _ _ _ m).
Qed.

Lemma InitializeSession_sequence (now : Z) (ids : list string) :
  ∀ (s : state) (m : gmap string ptr),
    mutex (memory s) = false →
    sessions (memory s) = Some m →
    NoDup ids →
    (∀ sessionId, sessionId ∈ ids → m !! sessionId = None) →
    ∃ (s' : state) (m' : gmap string ptr),
      run_calls (CallInitialize now <$> ids) s = Returns tt s' ∧
      mutex (memory s') = false ∧
      sessions (memory s') = Some m' ∧
      (∀ sessionId, sessionId ∈ ids →
         ∃ p, m' !! sessionId = Some p ∧
              heap s' !! p = Some (fresh_session now sessionId)) ∧
      (∀ sessionId, sessionId ∉ ids → m' !! sessionId = m !! sessionId) ∧
      (∀ q o, heap s !! q = Some o → heap s' !! q = Some o) ∧
      size m' = (size m + length ids)%nat ∧
      wrap64 (activeSessions (memory s'))
      = wrap64 (activeSessions (memory s) + Z.of_nat (length ids)) ∧
      (ids ≠ [] → wrap64 (activeSessions (memory s')) = activeSessions (memory s')).
Proof.
  induction ids as [|sessionId ids IH]; intros s m Hmu Hss Hnd Hfresh.
  - exists s, m. rewrite Z.add_0_r. simpl. repeat split; try done.
    intros sessionId Hin. by apply elem_of_nil in Hin.
  - apply NoDup_cons in Hnd as [Hnotin Hnd].
    rewrite fmap_cons, run_calls_cons, (run_CallInitialize _ _ _ m) by done.
    match goal with
    | |- context [run_calls _ ?s1] =>
        destruct (IH s1 (<[sessionId := length (heap s)]> m))
          as (s' & m' & Hrun & Hmu' & Hss' & Hnew & Hold & Hheap & Hsize & Hc & Hw);
          [done | done | done | |]
    end.
    { intros other Hin. rewrite lookup_insert_ne; [apply Hfresh; by right|].
      intros ->. done. }
    exists s', m'. simpl in *. split; [done|]. split; [done|]. split; [done|].
    split; [|split; [|split; [|split; [|split]]]].
    + intros other [->|Hin]%elem_of_cons; [|by apply Hnew].
      exists (length (heap s)). split.
      * rewrite Hold by done. by rewrite lookup_insert_eq.
      * apply Hheap. by apply list_lookup_middle.
    + intros other Hnin. apply not_elem_of_cons in Hnin as [Hne Hnin].
      rewrite Hold by done. by rewrite lookup_insert_ne.
    + intros q o Hq. apply Hheap. by apply lookup_app_l_Some.
    + rewrite Hsize. rewrite map_size_insert_None by (apply Hfresh; left). lia.
    + rewrite Hc. unfold int64_add. rewrite wrap64_idemp_l. f_equal. lia.
    + intros _. destruct ids as [|id' ids'].
      * simpl in Hrun. injection Hrun as <-. simpl. unfold int64_add.
        apply wrap64_wrap64.
      * by apply Hw.
Qed.

(** X5. From a reachable store whose map is allocated, N calls of
    InitializeSession with N different identifiers that are not registered
    all return. Afterwards every one of the identifiers is retrieved with a
    session that carries it, the sessions registered before are registered
    as before, and the counter and the number of entries have both grown by
    N. *)
Theorem InitializeSession_many (now : Z) (ids : list string) (s : state) :
  reachable s →
  sessions (memory s) ≠ None →
  NoDup ids →
  (∀ sessionId, sessionId ∈ ids → registered s sessionId = None) →
  entries s + Z.of_nat (length ids) < 2 ^ 63 →
  ∃ s',
    run_calls (CallInitialize now <$> ids) s = Returns tt s' ∧
    (∀ sessionId, sessionId ∈ ids →
       ∃ p, RetrieveSession sessionId s' = Returns (Ok p) s' ∧
            GetSessionId p s' = Returns sessionId s') ∧
    (∀ sessionId, sessionId ∉ ids →
       registered s' sessionId = registered s sessionId) ∧
    entries s' = entries s + Z.of_nat (length ids) ∧
    activeSessions (memory s') = entries s'.
Proof.
  intros (Hmu & Hv & Hc)%reachable_consistent Hss Hnd Hfresh Hbound.
  unfold registered, entries in *.
  destruct (sessions (memory s)) as [m|] eqn:Hm; [|done]. simpl in *.
  destruct (InitializeSession_sequence now ids s m Hmu Hm Hnd Hfresh)
    as (s' & m' & Hrun & Hmu' & Hss' & Hnew & Hold & Hheap & Hsize & Hcnt & Hw).
  exists s'. rewrite Hss'. simpl. split; [done|].
  split; [|split; [|split]].
  - intros sessionId Hin. destruct (Hnew sessionId Hin) as (p & Hp & Ho).
    exists p. split.
    + rewrite RetrieveSession_free by done. unfold registered.
      rewrite Hss'. simpl. by rewrite Hp.
    + unfold GetSessionId. unfold_M. by rewrite (load_Some p s' _ Ho).
  - done.
  - rewrite Hsize. lia.
  - destruct ids as [|id0 ids0].
    + simpl in Hrun. injection Hrun as <-. rewrite Hm in Hss'.
      injection Hss' as <-. rewrite Hc. apply wrap64_small. lia.
    + rewrite <- Hw by done. rewrite Hcnt, Hc, wrap64_idemp_l, Hsize.
      rewrite wrap64_small; lia.
Qed.
End InitializeMany.

Lemma InitializeSession_many_witness :
  ∃ s',
    run_calls (CallInitialize 4 <$> ["b"; "c"]) (one_session 1) = Returns tt s' ∧
    (∀ sessionId, sessionId ∈ ["b"; "c"] →
       ∃ p, memory_storage.RetrieveSession sessionId s' = Returns (Ok p) s' ∧
            memory_storage.GetSessionId p s' = Returns sessionId s') ∧
    (∀ sessionId, sessionId ∉ ["b"; "c"] →
       registered s' sessionId = registered (one_session 1) sessionId) ∧
    entries s' = entries (one_session 1) + Z.of_nat (length ["b"; "c"]) ∧
    memory_storage.activeSessions (memory_storage.memory s') = entries s'.
Proof.
  apply (InitializeSession_many 4 ["b"; "c"] (one_session 1)).
  - apply one_session_reachable.
  - discriminate.
  - compute_done.
  - intros sessionId Hin.
    apply elem_of_cons in Hin as [->|Hin]; [reflexivity|].
    apply elem_of_cons in Hin as [->|Hin]; [reflexivity|].
    by apply elem_of_nil in Hin.
  - vm_compute. reflexivity.
Defined.

(** ** Beyond the claims: the sweep *)

Section SweepMore.
Import memory_storage.

Lemma TerminateSessionOnExpiration_nil (now maxLifetime : Z) (s s' : state) :
  mutex (memory s) = false →
  handles_valid s →
  TerminateSessionOnExpiration now maxLifetime s = Returns tt s' →
  (sessions (memory s') = None ↔ sessions (memory s) = None).
Proof.
  destruct s as [h [held c [m|]]]; simpl; intros -> Hv Hrun.
  - destruct (sweep_loop now maxLifetime (map_to_list m)
                {| heap := h;
                   memory := {| mutex := true; activeSessions := c;
                                sessions := Some m |} |} m)
      as (s1 & m1 & Hrun1 & Hh & Hmu & Hss1 & _).
    + done.
    + apply NoDup_fst_map_to_list.
    + intros k p Hin%elem_of_map_to_list. split; [done|]. by apply (Hv k p).
    + destruct s1 as [h1 [held1 c1 ss1]]. simpl in *. subst h1 held1 ss1.
      unfold TerminateSessionOnExpiration, Lock, Unlock in Hrun. unfold_M.
      unfold set_memory, set_mutex in Hrun.
      cbn -[forM_ sweep_entry map_to_list] in Hrun.
      rewrite Hrun1 in Hrun. injection Hrun as <-. simpl. split; discriminate.
  - injection Hrun as <-. done.
Qed.

Lemma keep_Some (now maxLifetime : Z) (h : list MemorySession) (p q : ptr) :
  keep now maxLifetime h p = Some q → p = q ∧ keep now maxLifetime h q = Some q.
Proof.
  unfold keep. destruct (swept now maxLifetime h p) eqn:Hsw; [done|].
  intros [= <-]. by rewrite Hsw.
Qed.

(** X7. In a reachable store the sweep returns. It leaves every session
    object as it is and registers nothing: a session registered afterwards
    was registered before under the same identifier. A registered session is
    removed exactly when its access time plus maxLifetime, as an int64, is
    greater than the time of the sweep. The store reached is again one in
    which the counter is the number of entries. *)
Theorem sweep_only_removes (now maxLifetime : Z) (s : state) :
  reachable s →
  ∃ s',
    TerminateSessionOnExpiration now maxLifetime s = Returns tt s' ∧
    heap s' = heap s ∧
    (∀ k p, registered s' k = Some p → registered s k = Some p) ∧
    (∀ k p o, registered s k = Some p → heap s !! p = Some o →
       (registered s' k = None ↔
        int64_add (lastAccessTime o) maxLifetime > now)) ∧
    reachable s' ∧
    (entries s' < 2 ^ 63 → activeSessions (memory s') = entries s').
Proof.
  intros Hreach. pose proof (reachable_consistent s Hreach) as (Hmu & Hv & Hc).
  destruct (TerminateSessionOnExpiration_spec now maxLifetime s Hmu Hv)
    as (s' & Hrun & Hh & Hmu' & Hlk & Hc').
  assert (reachable s') as Hreach'.
  { destruct Hreach as (s0 & Hempty & Hsteps). exists s0. split; [done|].
    eapply rtc_r; [done|]. by exists (CallTerminate now maxLifetime). }
  exists s'. split; [done|]. split; [done|]. split; [|split; [|split]].
  - intros k p Hk. rewrite Hlk in Hk.
    destruct (registered s k) as [q|]; [|done]. simpl in Hk.
    by apply keep_Some in Hk as [-> _].
  - intros k p o Hk Ho. rewrite Hlk, Hk. simpl. unfold keep, swept. rewrite Ho.
    destruct (Z.gtb_spec (int64_add (lastAccessTime o) maxLifetime) now);
      split; try done; lia.
  - done.
  - intros Hbound. rewrite Hc' by done. apply wrap64_small.
    unfold entries in *. lia.
Qed.

(** X8. The sweep is idempotent at a fixed time: in a reachable store, a
    second sweep with the same clock reading and the same maxLifetime
    returns and changes nothing. *)
Theorem sweep_idempotent (now maxLifetime : Z) (s : state) :
  reachable s →
  ∃ s1,
    TerminateSessionOnExpiration now maxLifetime s = Returns tt s1 ∧
    TerminateSessionOnExpiration now maxLifetime s1 = Returns tt s1.
Proof.
  intros (Hmu & Hv & Hc)%reachable_consistent.
  destruct (TerminateSessionOnExpiration_spec now maxLifetime s Hmu Hv)
    as (s1 & Hrun1 & Hh1 & Hmu1 & Hlk1 & Hc1).
  assert (consistent s1) as (_ & Hv1 & Hcs1).
  { apply (step_consistent s); [done|]. by exists (CallTerminate now maxLifetime). }
  destruct (TerminateSessionOnExpiration_spec now maxLifetime s1 Hmu1 Hv1)
    as (s2 & Hrun2 & Hh2 & Hmu2 & Hlk2 & Hc2).
  exists s1. split; [done|]. rewrite Hrun2. f_equal.
  pose proof (TerminateSessionOnExpiration_nil _ _ _ _ Hmu1 Hv1 Hrun2) as Hnil.
  specialize (Hc2 Hcs1).
  assert (∀ k, registered s2 k = registered s1 k) as Hsame.
  { intros k. rewrite Hlk2. destruct (registered s1 k) as [p|] eqn:Hp; [|done].
    simpl. rewrite Hlk1 in Hp. destruct (registered s k) as [q|]; [|done].
    simpl in Hp. apply keep_Some in Hp as [-> Hp]. by rewrite Hh1. }
  unfold registered, entries in *.
  destruct s1 as [h1 [mu1 c1 ss1]], s2 as [h2 [mu2 c2 ss2]]. simpl in *.
  subst h2 mu1 mu2.
  assert (ss2 = ss1) as ->.
  { destruct ss1 as [m1|], ss2 as [m2|]; simpl in *.
    - f_equal. by apply map_eq.
    - by destruct Hnil as [Hnil _]; specialize (Hnil eq_refl).
    - by destruct Hnil as [_ Hnil]; specialize (Hnil eq_refl).
    - done. }
  by rewrite Hc2, Hcs1.
Qed.

(** X9. When the access time plus maxLifetime does not fit an int64 the sum
    wraps to a negative number, and the sweep keeps the session at every
    time from 0 on. *)
Theorem sweep_overflow_keeps (now maxLifetime : Z) (s : state) (k : string)
    (p : ptr) (o : MemorySession) :
  reachable s →
  registered s k = Some p →
  heap s !! p = Some o →
  2 ^ 63 ≤ lastAccessTime o + maxLifetime < 2 ^ 64 →
  0 ≤ now →
  ∃ s', TerminateSessionOnExpiration now maxLifetime s = Returns tt s' ∧
        registered s' k = Some p.
Proof.
  intros (Hmu & Hv & _)%reachable_consistent Hk Ho Hrange Hnow.
  destruct (sweep_session now maxLifetime s k p o) as (s' & Hrun & Hreg);
    try done.
  exists s'. split; [done|]. rewrite Hreg.
  assert (int64_add (lastAccessTime o) maxLifetime
          = lastAccessTime o + maxLifetime - 2 ^ 64) as ->.
  { unfold int64_add, wrap64.
    replace (lastAccessTime o + maxLifetime + 2 ^ 63)
      with ((lastAccessTime o + maxLifetime - 2 ^ 63) + 1 * 2 ^ 64) by lia.
    rewrite Z_mod_plus_full, Z.mod_small; lia. }
  destruct (Z.gtb_spec (lastAccessTime o + maxLifetime - 2 ^ 64) now); [lia|done].
Qed.

(** With the same reading in every iteration the loop is the loop at that
    reading. *)
Lemma sweep_with_clock_same_reading (now maxLifetime : Z)
    (l : list (string * ptr)) (s : state) :
  sweep_with_clock maxLifetime l (replicate (length l) now) s
  = forM_ l (sweep_entry now maxLifetime) s.
Proof.
  revert s. induction l as [|e l IH]; intros s; [done|].
  change (bind (sweep_entry now maxLifetime e)
            (λ _, sweep_with_clock maxLifetime l (replicate (length l) now)) s
          = bind (sweep_entry now maxLifetime e)
              (λ _, forM_ l (sweep_entry now maxLifetime)) s).
  unfold bind. by destruct (sweep_entry now maxLifetime e s).
Qed.

(** The sweep at one reading is the sweep whose clock gives that reading in
    every iteration. *)
Lemma TerminateSessionOnExpiration_same_reading (now maxLifetime : Z) (s : state) :
  TerminateSessionOnExpiration_with_clock
    (replicate (length (gomap_entries (sessions (memory s)))) now) maxLifetime s
  = TerminateSessionOnExpiration now maxLifetime s.
Proof.
  unfold TerminateSessionOnExpiration_with_clock, TerminateSessionOnExpiration.
  unfold_M. destruct (Lock s) as [[] s1| |] eqn:HLock; [|done|done].
  assert (sessions (memory s1) = sessions (memory s)) as Hss.
  { unfold Lock in HLock. unfold_M. unfold Mutex_Lock in HLock.
    destruct s as [h [[] c ss]]; simpl in HLock; [done|].
    by injection HLock as <-. }
  rewrite <- Hss. by rewrite sweep_with_clock_same_reading.
Qed.

(** X10. Go does not fix the order in which a range visits a map, and the
    loop of the sweep reads the clock anew in every iteration. Provided the
    clock gives the same second in every iteration, in a store reached by
    completed calls the loop gives the same store for every order of the
    entries. *)
Theorem sweep_order_irrelevant (now maxLifetime : Z) (s : state)
    (m : gmap string ptr) (l : list (string * ptr)) :
  reachable s →
  sessions (memory s) = Some m →
  l ≡ₚ map_to_list m →
  sweep_with_clock maxLifetime l (replicate (length l) now) s
  = sweep_with_clock maxLifetime (map_to_list m)
      (replicate (length (map_to_list m)) now) s.
Proof.
  intros (_ & Hv & Hc)%reachable_consistent Hss Hperm.
  rewrite !sweep_with_clock_same_reading.
  apply sweep_any_order; try done.
  unfold entries in Hc. by rewrite Hss in Hc.
Qed.

(** X25. Without that proviso the order matters. Two sessions last accessed
    at second 100, a lifetime of 10 seconds, and a clock that reads 109 in
    the first iteration and 110 in the second: the loop removes the session
    it visits first and keeps the other one, so the two orders of the range
    leave different stores. *)
Theorem sweep_order_matters_when_clock_ticks :
  sessions (memory (two_sessions 100 100)) = Some two_entries ∧
  [("a", 0%nat); ("b", 1%nat)] ≡ₚ map_to_list two_entries ∧
  [("b", 1%nat); ("a", 0%nat)] ≡ₚ map_to_list two_entries ∧
  ∃ s1 s2,
    sweep_with_clock 10 [("a", 0%nat); ("b", 1%nat)] [109; 110]
      (two_sessions 100 100) = Returns tt s1 ∧
    sweep_with_clock 10 [("b", 1%nat); ("a", 0%nat)] [109; 110]
      (two_sessions 100 100) = Returns tt s2 ∧
    registered s1 "a" = None ∧ registered s1 "b" = Some 1%nat ∧
    registered s2 "a" = Some 0%nat ∧ registered s2 "b" = None.
Proof.
  assert ([("a", 0%nat); ("b", 1%nat)] ≡ₚ map_to_list two_entries) as Hab.
  { apply NoDup_Permutation.
    - apply NoDup_cons. split; [|apply NoDup_singleton].
      by intros [=]%list_elem_of_singleton.
    - apply NoDup_map_to_list.
    - intros [k p]. rewrite elem_of_map_to_list. unfold two_entries.
      rewrite lookup_insert_Some, lookup_singleton_Some.
      rewrite elem_of_cons, list_elem_of_singleton. split.
      + intros [[= -> ->]|[= -> ->]]; [by right|by left].
      + intros [[<- <-]|[? [<- <-]]]; [by right|by left]. }
  split; [done|]. split; [exact Hab|].
  split; [by rewrite <- Hab; apply Permutation_swap|].
  eexists _, _. split; [vm_compute; reflexivity|].
  split; [vm_compute; reflexivity|]. by vm_compute.
Qed.
End SweepMore.

Lemma two_sessions_reachable (t1 t2 : Z) : reachable (two_sessions t1 t2).
Proof.
  exists allocated_state. split.
  - unfold empty_store. simpl. auto.
  - eapply rtc_l; [exists (CallInitialize t1 "a"); split; reflexivity|].
    apply rtc_once. exists (CallInitialize t2 "b"). split; reflexivity.
Qed.

Lemma sweep_only_removes_witness :
  ∃ s',
    memory_storage.TerminateSessionOnExpiration 107 5 (two_sessions 100 105)
      = Returns tt s' ∧
    memory_storage.heap s' = memory_storage.heap (two_sessions 100 105) ∧
    (∀ k p, registered s' k = Some p →
            registered (two_sessions 100 105) k = Some p) ∧
    (∀ k p o, registered (two_sessions 100 105) k = Some p →
       memory_storage.heap (two_sessions 100 105) !! p = Some o →
       (registered s' k = None ↔
        int64_add (memory_storage.lastAccessTime o) 5 > 107)) ∧
    reachable s' ∧
    (entries s' < 2 ^ 63 →
     memory_storage.activeSessions (memory_storage.memory s') = entries s').
Proof.
  apply (sweep_only_removes 107 5 (two_sessions 100 105)).
  apply two_sessions_reachable.
Defined.

Lemma sweep_idempotent_witness :
  ∃ s1,
    memory_storage.TerminateSessionOnExpiration 107 5 (two_sessions 100 105)
      = Returns tt s1 ∧
    memory_storage.TerminateSessionOnExpiration 107 5 s1 = Returns tt s1.
Proof.
  apply (sweep_idempotent 107 5 (two_sessions 100 105)).
  apply two_sessions_reachable.
Defined.

Lemma sweep_overflow_keeps_witness :
  ∃ s',
    memory_storage.TerminateSessionOnExpiration 200 (2 ^ 63 - 1) (one_session 100)
      = Returns tt s' ∧
    registered s' "a" = Some 0%nat.
Proof.
  apply (sweep_overflow_keeps 200 (2 ^ 63 - 1) (one_session 100) "a" 0%nat
           (fresh_session 100 "a")).
  - apply one_session_reachable.
  - reflexivity.
  - reflexivity.
  - simpl. lia.
  - lia.
Defined.

Lemma sweep_order_irrelevant_witness :
  sweep_with_clock 5 (reverse (map_to_list two_entries))
    (replicate (length (reverse (map_to_list two_entries))) 107)
    (two_sessions 100 105)
  = sweep_with_clock 5 (map_to_list two_entries)
      (replicate (length (map_to_list two_entries)) 107)
      (two_sessions 100 105).
Proof.
  apply (sweep_order_irrelevant 107 5 (two_sessions 100 105)).
  - apply two_sessions_reachable.
  - reflexivity.
  - apply reverse_Permutation.
Defined.

(** ** Beyond the claims: store calls interleaved with session calls *)

Section Interleaved.
Import memory_storage.

Lemma reachable_app_reachable (s : state) : reachable s → app_reachable s.
Proof.
  intros (s0 & Hempty & Hsteps). exists s0. split; [done|]. clear Hempty.
  induction Hsteps as [|s1 s2 s3 Hstep _ IH]; [done|].
  eapply rtc_l; [left; exact Hstep | exact IH].
Qed.

Lemma empty_store_pristine (s : state) : empty_store s → pristine s.
Proof.
  intros (_ & _ & Hss) k p Hk. unfold registered in Hk.
  destruct Hss as [Hss|Hss]; rewrite Hss in Hk; simpl in Hk; [done|].
  by rewrite lookup_empty in Hk.
Qed.

Lemma step_pristine (s s' : state) :
  consistent s → pristine s → step s s' → pristine s'.
Proof.
  intros (Hmu & Hv & Hc) Hp (c & Hadm & Hrun). destruct c; simpl in *.
  - unfold_M. destruct (InitializeSession now sessionId s) eqn:Hinit;
      try discriminate.
    injection Hrun as <-.
    apply InitializeSession_Returns in Hinit as (m & _ & Hss & -> & ->).
    intros k p Hk. unfold registered in Hk. simpl in Hk.
    destruct (decide (k = sessionId)) as [->|Hne].
    + rewrite lookup_insert_eq in Hk. injection Hk as <-.
      exists (fresh_session now sessionId). simpl.
      by rewrite list_lookup_middle.
    + rewrite lookup_insert_ne in Hk by done.
      destruct (Hp k p) as (o & Ho & Hid & Hval);
        [unfold registered; by rewrite Hss|].
      exists o. simpl. split; [by apply lookup_app_l_Some|done].
  - unfold_M. rewrite RetrieveSession_free in Hrun by done.
    by injection Hrun as <-.
  - unfold_M. by rewrite UpdateSessionLastAccess_blocks in Hrun.
  - unfold_M. by rewrite DestroySession_blocks in Hrun.
  - destruct (TerminateSessionOnExpiration_spec now maxLifetime s Hmu Hv)
      as (s1 & Hrun1 & Hh & _ & Hlk & _).
    rewrite Hrun1 in Hrun. injection Hrun as <-.
    intros k p Hk. rewrite Hh. apply Hp. rewrite Hlk in Hk.
    destruct (registered s k) as [q|]; [|done]. simpl in Hk.
    by apply keep_Some in Hk as [-> _].
Qed.

(** What a completed session call can have done: nothing, or replaced one
    object by one with the same identifier whose value map is nil only if it
    was nil before. *)
Lemma run_session_Returns (c : session_call) (s s' : state) :
  run_session c s = Returns tt s' →
  s' = s ∨
  ∃ p o o', heap s !! p = Some o ∧
            s' = {| heap := <[p := o']> (heap s); memory := memory s |} ∧
            id o' = id o ∧
            (value o = None → o' = o).
Proof.
  destruct c as [p key val|p key|p key|p]; simpl; unfold_M; intros Hrun.
  - destruct (heap s !! p) as [o|] eqn:Ho.
    + rewrite (SetValue_run p key val s o Ho) in Hrun.
      destruct (ifacemap_store (value o) key val) as [msg|v'] eqn:Hst;
        [discriminate|].
      injection Hrun as <-. right. exists p, o, (set_value v' o).
      split; [done|]. split; [done|]. split; [done|].
      intros Hnil. rewrite Hnil in Hst. discriminate Hst.
    + unfold SetValue in Hrun. unfold_M.
      rewrite (load_None p s) in Hrun by done. discriminate.
  - destruct (heap s !! p) as [o|] eqn:Ho.
    + rewrite (GetValue_run p key s o Ho) in Hrun.
      destruct (ifacemap_lookup (value o) key); [discriminate|].
      injection Hrun as <-. by left.
    + unfold GetValue in Hrun. unfold_M.
      rewrite (load_None p s) in Hrun by done. discriminate.
  - destruct (heap s !! p) as [o|] eqn:Ho.
    + rewrite (DeleteValue_run p key s o Ho) in Hrun.
      destruct (ifacemap_delete (value o) key) as [msg|v'] eqn:Hdel;
        [discriminate|].
      injection Hrun as <-. right. exists p, o, (set_value v' o).
      split; [done|]. split; [done|]. split; [done|].
      intros Hnil. unfold ifacemap_delete in Hdel. rewrite Hnil in Hdel.
      assert (v' = None) as -> by (destruct (map_key key); congruence).
      rewrite <- Hnil. apply set_value_same.
    + unfold DeleteValue in Hrun. unfold_M.
      rewrite (load_None p s) in Hrun by done. discriminate.
  - destruct (heap s !! p) as [o|] eqn:Ho.
    + unfold GetSessionId in Hrun. unfold_M.
      rewrite (load_Some p s o) in Hrun by done.
      injection Hrun as <-. by left.
    + unfold GetSessionId in Hrun. unfold_M.
      rewrite (load_None p s) in Hrun by done. discriminate.
Qed.

Lemma app_step_invariant (s s' : state) :
  consistent s ∧ pristine s → app_step s s' → consistent s' ∧ pristine s'.
Proof.
  intros [Hcs Hp] [Hstep|(c & Hrun)].
  - split; [by eapply step_consistent | by eapply step_pristine].
  - apply run_session_Returns in Hrun as [->|(p & o & o' & Ho & -> & Hid & Hnil)];
      [done|].
    destruct Hcs as (Hmu & Hv & Hc).
    assert (∀ k q, registered s k = Some q →
                   <[p := o']> (heap s) !! q = heap s !! q) as Hsame.
    { intros k q Hk. destruct (decide (q = p)) as [->|Hne].
      - destruct (Hp k p Hk) as (o0 & Ho0 & _ & Hval).
        unfold ptr in *. rewrite Ho in Ho0. injection Ho0 as <-.
        rewrite (Hnil Hval). by rewrite list_insert_id.
      - by apply list_lookup_insert_ne. }
    split; [split; [done|split; [|done]]|].
    + intros k q Hk. simpl. rewrite (Hsame k q) by done. by apply (Hv k q).
    + intros k q Hk. simpl. rewrite (Hsame k q) by done. by apply Hp.
Qed.

Lemma app_reachable_invariant (s : state) :
  app_reachable s → consistent s ∧ pristine s.
Proof.
  intros (s0 & Hempty & Hsteps).
  assert (consistent s0 ∧ pristine s0) as Hinv
    by (split; [by apply empty_store_consistent | by apply empty_store_pristine]).
  clear Hempty.
  induction Hsteps as [|s1 s2 s3 Hstep _ IH]; [done|].
  apply IH. by eapply app_step_invariant.
Qed.

(** X11. In every store reached by completed calls, the counter is equal
    to the number of entries also when the application's calls on session
    handles (SetValue, GetValue, DeleteValue, GetSessionId, on any handle
    and with any key) are interleaved with the calls on the store: none of
    the session methods touches the counter or the sessions map. A call that
    panics or blocks is not a completed call. *)
Theorem counter_equals_entries_interleaved (s : state) :
  app_reachable s →
  entries s < 2 ^ 63 →
  activeSessions (memory s) = entries s.
Proof.
  intros [(_ & _ & Hc) _]%app_reachable_invariant Hbound.
  rewrite Hc. apply wrap64_small. unfold entries in *. lia.
Qed.

(** X12. In every store reached by completed store and session calls, the
    session retrieved for a registered identifier reports that identifier:
    RetrieveSession returns the registered handle without changing the
    store, and GetSessionId on it gives the identifier it was asked for. *)
Theorem retrieved_session_has_id (s : state) (sessionId : string) (p : ptr) :
  app_reachable s →
  registered s sessionId = Some p →
  RetrieveSession sessionId s = Returns (Ok p) s ∧
  GetSessionId p s = Returns sessionId s.
Proof.
  intros [(Hmu & _) Hp]%app_reachable_invariant Hk.
  destruct (Hp sessionId p Hk) as (o & Ho & Hid & _). split.
  - rewrite RetrieveSession_free by done. by rewrite Hk.
  - unfold GetSessionId. unfold_M. by rewrite (load_Some p s o), Hid.
Qed.

Lemma DeleteValue_nil (p : ptr) (key : any) (s : state) (o : MemorySession) :
  heap s !! p = Some o →
  value o = None →
  hashable key = true →
  DeleteValue p key s = Returns None s.
Proof.
  intros Ho Hval Hh. rewrite (DeleteValue_run p key s o Ho).
  unfold ifacemap_delete. rewrite Hval.
  assert (set_value None o = o) as Hsame by (rewrite <- Hval; apply set_value_same).
  destruct (hashable_map_key key Hh) as [->|[k ->]]; rewrite Hsame;
    rewrite list_insert_id by done; by destruct s.
Qed.

(** X13. No registered session ever holds a value. In every store reached
    by completed store and session calls, and for every registered session:
    SetValue panics on the nil value map for every key and value; for every
    key that can be hashed GetValue gives nil and DeleteValue returns a nil
    error; for a key of a slice, map or function type GetValue and
    DeleteValue panic on hashing it. None of these calls changes the
    state. *)
Theorem registered_sessions_stay_empty (s : state) (sessionId : string)
    (p : ptr) (key val : any) (ty : string) :
  app_reachable s →
  registered s sessionId = Some p →
  SetValue p key val s = Panics nil_map_write s ∧
  (hashable key = true →
   GetValue p key s = Returns ANil s ∧ DeleteValue p key s = Returns None s) ∧
  GetValue p (AUnhashable ty) s = Panics (unhashable_key ty) s ∧
  DeleteValue p (AUnhashable ty) s = Panics (unhashable_key ty) s.
Proof.
  intros [_ Hp]%app_reachable_invariant Hk.
  destruct (Hp sessionId p Hk) as (o & Ho & _ & Hval).
  split; [|split; [|split]].
  - rewrite (SetValue_run p key val s o Ho). by rewrite Hval.
  - intros Hh. split; [|by apply (DeleteValue_nil p key s o)].
    rewrite (GetValue_run p key s o Ho). unfold ifacemap_lookup. rewrite Hval.
    by destruct (hashable_map_key key Hh) as [->|[k ->]].
  - by rewrite (GetValue_run p _ s o Ho).
  - by rewrite (DeleteValue_run p _ s o Ho).
Qed.
End Interleaved.

Lemma after_DeleteValue_app_reachable : app_reachable (one_session 5).
Proof.
  destruct (reachable_app_reachable _ (one_session_reachable 5))
    as (s0 & Hempty & Hsteps).
  exists s0. split; [done|]. eapply rtc_r; [done|]. right.
  exists (CallDeleteValue 0%nat (AString "k")). reflexivity.
Qed.

Lemma counter_equals_entries_interleaved_witness :
  memory_storage.activeSessions (memory_storage.memory (one_session 5))
  = entries (one_session 5).
Proof.
  apply (counter_equals_entries_interleaved (one_session 5)).
  - apply after_DeleteValue_app_reachable.
  - vm_compute. reflexivity.
Defined.

Lemma retrieved_session_has_id_witness :
  memory_storage.RetrieveSession "a" (one_session 5)
    = Returns (Ok 0%nat) (one_session 5) ∧
  memory_storage.GetSessionId 0%nat (one_session 5) = Returns "a" (one_session 5).
Proof.
  apply (retrieved_session_has_id (one_session 5) "a" 0%nat).
  - apply after_DeleteValue_app_reachable.
  - reflexivity.
Defined.

Lemma registered_sessions_stay_empty_witness :
  memory_storage.SetValue 0%nat (AString "k") (AInt 1) (one_session 5)
    = Panics nil_map_write (one_session 5) ∧
  (hashable (AString "k") = true →
   memory_storage.GetValue 0%nat (AString "k") (one_session 5)
     = Returns ANil (one_session 5) ∧
   memory_storage.DeleteValue 0%nat (AString "k") (one_session 5)
     = Returns None (one_session 5)) ∧
  memory_storage.GetValue 0%nat (AUnhashable "[]int") (one_session 5)
    = Panics (unhashable_key "[]int") (one_session 5) ∧
  memory_storage.DeleteValue 0%nat (AUnhashable "[]int") (one_session 5)
    = Panics (unhashable_key "[]int") (one_session 5).
Proof.
  apply (registered_sessions_stay_empty (one_session 5) "a" 0%nat
           (AString "k") (AInt 1) "[]int").
  - apply after_DeleteValue_app_reachable.
  - reflexivity.
Defined.

(** ** Beyond the claims: identifiers and cookies *)

Section Identifiers.
Import net_url.

Lemma enc_unreserved (n : N) : shouldEscape (base64.enc n) = false.
Proof.
  unfold base64.enc.
  assert (N.to_nat (N.land n 63) < 64)%nat as Hlt.
  { change 63%N with (N.ones 6). rewrite N.land_ones.
    pose proof (N.mod_upper_bound n (2 ^ 6)) as Hb. lia. }
  revert Hlt. generalize (N.to_nat (N.land n 63)). intros k Hk.
  do 64 (destruct k as [|k]; [reflexivity|]). lia.
Qed.

Lemma unreserved_cons (c : ascii) (t : string) :
  unreserved (String c t) = negb (shouldEscape c) && unreserved t.
Proof. reflexivity. Qed.

Lemma escape_unreserved (t : string) : unreserved t = true → escape t = t.
Proof.
  induction t as [|c t IH]; [done|]. rewrite unreserved_cons.
  intros [Hc Ht]%andb_true_iff. apply negb_true_iff in Hc.
  change (escape (String c t)) with
    (if shouldEscape c then
       if Ascii.eqb c " " then String "+" (escape t)
       else String "%"
              (String (upperhex (N.shiftr (N_of_ascii c) 4))
                 (String (upperhex (N.land (N_of_ascii c) 15)) (escape t)))
     else String c (escape t)).
  by rewrite Hc, IH.
Qed.

Lemma EncodeToString_padded_unreserved (n : nat) (src : list Byte.byte) :
  length src = (3 * n + 2)%nat →
  ∃ t, base64.EncodeToString src = t +:+ "=" ∧
       unreserved t = true ∧
       String.length t = (4 * n + 3)%nat.
Proof.
  revert src. induction n as [|n IH]; intros src Hlen.
  - destruct src as [|x [|y [|z rest]]]; simpl in Hlen; try lia.
    eexists (String _ (String _ (String _ EmptyString))).
    split; [reflexivity|]. split; [|reflexivity].
    rewrite !unreserved_cons, !enc_unreserved. reflexivity.
  - destruct src as [|x [|y [|z rest]]]; simpl in Hlen; try lia.
    destruct (IH rest) as (t & Ht & Hsafe & Hl); [lia|].
    change (base64.EncodeToString (x :: y :: z :: rest)) with
      (let v := N.lor (N.lor (N.shiftl (base64.b x) 16) (N.shiftl (base64.b y) 8))
                  (base64.b z) in
       String (base64.enc (N.shiftr v 18)) (String (base64.enc (N.shiftr v 12))
         (String (base64.enc (N.shiftr v 6))
            (String (base64.enc v) (base64.EncodeToString rest))))).
    cbv zeta. rewrite Ht.
    eexists (String _ (String _ (String _ (String _ t)))).
    split; [reflexivity|]. split.
    + rewrite !unreserved_cons, !enc_unreserved, Hsafe. reflexivity.
    + cbn [String.length]. rewrite Hl. lia.
Qed.

(** X14. With at least 32 bytes of randomness the identifier has 44 bytes:
    43 bytes that need no escaping followed by the padding "=". The cookie
    value made from it is those 43 bytes followed by "%3D", 46 bytes. *)
Theorem generated_id_shape (entropy : list Byte.byte) :
  (32 ≤ length entropy)%nat →
  ∃ t,
    wsm_backup.generateUniqueSessionID entropy = t +:+ "=" ∧
    String.length t = 43%nat ∧
    unreserved t = true ∧
    QueryEscape (wsm_backup.generateUniqueSessionID entropy) = t +:+ "%3D".
Proof.
  intros Hlen. unfold wsm_backup.generateUniqueSessionID, QueryEscape.
  destruct (Nat.ltb_spec (length entropy) 32) as [?|_]; [lia|].
  destruct (EncodeToString_padded_unreserved 10 (take 32 entropy))
    as (t & Ht & Hsafe & Hl).
  { rewrite length_take. lia. }
  exists t. rewrite Ht, escape_app, (escape_unreserved t Hsafe).
  split; [done|]. split; [done|]. split; [done|]. reflexivity.
Qed.

Lemma unescape_cons (c : ascii) (s' : string) :
  unescape (String c s') =
  if Ascii.eqb c "%" then
    match s' with
    | String a (String b s'') =>
        if ishex a && ishex b then
          match unescape s'' with
          | Ok t =>
              Ok (String (ascii_of_N (N.lor (N.shiftl (unhex a) 4) (unhex b))) t)
          | Err e => Err e
          end
        else Err (EscapeError (String.substring 0 3 (String c s')))
    | _ => Err (EscapeError (String.substring 0 3 (String c s')))
    end
  else
    match unescape s' with
    | Ok t => Ok (String (if Ascii.eqb c "+" then " "%char else c) t)
    | Err e => Err e
    end.
Proof. reflexivity. Qed.

(** [unescape] fails with nothing but an [EscapeError] of at most three
    bytes. *)
Lemma unescape_Err (s : string) (e : error) :
  unescape s = Err e →
  ∃ fragment, e = EscapeError fragment ∧ (String.length fragment ≤ 3)%nat.
Proof.
  remember (String.length s) as n eqn:Hn. revert s Hn.
  induction n as [n IH] using lt_wf_ind. intros s Hn.
  destruct s as [|c s']; [discriminate|]. rewrite unescape_cons.
  destruct (Ascii.eqb c "%").
  - destruct s' as [|a [|b0 s'']].
    + intros [= <-]. eexists. split; [reflexivity|]. cbn. lia.
    + intros [= <-]. eexists. split; [reflexivity|]. cbn. lia.
    + destruct (ishex a && ishex b0).
      * destruct (unescape s'') eqn:Hrec; [discriminate|].
        intros [= <-].
        assert (String.length s'' < n)%nat as Hlt
          by (subst n; cbn [String.length]; lia).
        exact (IH _ Hlt s'' eq_refl Hrec).
      * intros [= <-]. eexists. split; [reflexivity|].
        destruct s''; cbn; lia.
  - destruct (unescape s') eqn:Hrec; [discriminate|].
    intros [= <-].
    assert (String.length s' < n)%nat as Hlt
      by (subst n; cbn [String.length]; lia).
    exact (IH _ Hlt s' eq_refl Hrec).
Qed.
End Identifiers.

Lemma generated_id_shape_witness :
  ∃ t,
    wsm_backup.generateUniqueSessionID zero_entropy = t +:+ "=" ∧
    String.length t = 43%nat ∧
    unreserved t = true ∧
    net_url.QueryEscape (wsm_backup.generateUniqueSessionID zero_entropy)
    = t +:+ "%3D".
Proof.
  apply (generated_id_shape zero_entropy). vm_compute. lia.
Defined.

(** ** Beyond the claims: the manager *)

Section ManagerMore.
Import wsm_backup.

(** The world after the branch of StartSession that creates a session. *)
Lemma StartSession_fresh_run (entropy : list Byte.byte) (now : Z)
    (request : list Cookie) (w : world memory_storage.state)
    (m : gmap string memory_storage.ptr) :
  idle w →
  memory_storage.sessions (memory_storage.memory (store_of w)) = Some m →
  (∀ cookie, cookie_of w request = Some cookie → Value cookie = EmptyString) →
  StartSession entropy now request w =
  Returns (Ok (length (memory_storage.heap (store_of w))))
    {| manager :=
         {| mutex := false;
            cookieName := cookieName (manager w);
            storageMedia :=
              {| memory_storage.heap :=
                   memory_storage.heap (store_of w)
                   ++ [fresh_session now (generateUniqueSessionID entropy)];
                 memory_storage.memory :=
                   {| memory_storage.mutex := false;
                      memory_storage.activeSessions :=
                        int64_add (memory_storage.activeSessions
                                     (memory_storage.memory (store_of w))) 1;
                      memory_storage.sessions :=
                        Some (<[generateUniqueSessionID entropy :=
                                  length (memory_storage.heap (store_of w))]> m) |} |};
            maxLifetime := maxLifetime (manager w) |};
       response :=
         response w ++ [session_cookie (cookieName (manager w))
                          (generateUniqueSessionID entropy)
                          (maxLifetime (manager w))] |}.
Proof.
  destruct w as [[held name sm L] resp].
  unfold idle, cookie_of, store_of. simpl.
  intros [-> Hmu] Hss Hcookie.
  unfold StartSession, Lock, Unlock, onStorage, set_manager, set_mutex,
    set_storageMedia, SetCookie. unfold_M. simpl.
  destruct (Request_Cookie request name) as [cookie|].
  - rewrite (Hcookie cookie eq_refl). simpl.
    by rewrite (InitializeSession_allocated _ _ _ m).
  - by rewrite (InitializeSession_allocated _ _ _ m).
Qed.

(** X15. StartSession for a request without a cookie of the manager's name,
    or with an empty one, over a store whose map is allocated: it returns a
    new session registered under the generated identifier with the time of
    the call as access time, increments the counter, and writes exactly one
    cookie: the manager's cookie name, the escaped identifier, path "/",
    HttpOnly, MaxAge equal to maxLifetime and no Expires. The manager's
    mutex is free again and its settings are unchanged. *)
Theorem StartSession_new_session (entropy : list Byte.byte) (now : Z)
    (request : list Cookie) (w : world memory_storage.state)
    (m : gmap string memory_storage.ptr) :
  idle w →
  memory_storage.sessions (memory_storage.memory (store_of w)) = Some m →
  (∀ cookie, cookie_of w request = Some cookie → Value cookie = EmptyString) →
  ∃ session w1,
    StartSession entropy now request w = Returns (Ok session) w1 ∧
    idle w1 ∧
    cookieName (manager w1) = cookieName (manager w) ∧
    maxLifetime (manager w1) = maxLifetime (manager w) ∧
    response w1 =
      response w ++ [{| Name := cookieName (manager w);
                        Value := net_url.QueryEscape (generateUniqueSessionID entropy);
                        Path := "/"; HttpOnly := true;
                        MaxAge := maxLifetime (manager w);
                        Expires := None |}] ∧
    registered (store_of w1) (generateUniqueSessionID entropy) = Some session ∧
    memory_storage.heap (store_of w1) !! session
      = Some (fresh_session now (generateUniqueSessionID entropy)) ∧
    memory_storage.activeSessions (memory_storage.memory (store_of w1))
      = int64_add (memory_storage.activeSessions
                     (memory_storage.memory (store_of w))) 1.
Proof.
  intros Hidle Hss Hcookie. eexists _, _.
  split; [by apply (StartSession_fresh_run entropy now request w m)|].
  unfold idle, store_of, registered. simpl.
  split; [done|]. split; [done|]. split; [done|]. split; [done|].
  split; [by rewrite lookup_insert_eq|]. split; [|done].
  by apply list_lookup_middle.
Qed.

(** X17. StartSession with a cookie whose value is not a valid escaping (a
    "%" that is not followed by two hexadecimal digits) returns the
    EscapeError of url.QueryUnescape, of at most three bytes, and changes
    nothing: the store is not asked, no session is created, no cookie is
    written. *)
Theorem StartSession_malformed_cookie (entropy : list Byte.byte) (now : Z)
    (request : list Cookie) (w : world memory_storage.state)
    (cookie : Cookie) (e : error) :
  mutex (manager w) = false →
  cookie_of w request = Some cookie →
  Value cookie ≠ EmptyString →
  net_url.QueryUnescape (Value cookie) = Err e →
  StartSession entropy now request w = Returns (Err e) w ∧
  ∃ fragment, e = EscapeError fragment ∧ (String.length fragment ≤ 3)%nat.
Proof.
  destruct w as [[held name sm L] resp]. unfold cookie_of. simpl.
  intros -> Hcookie Hne Hun. split; [|by apply (unescape_Err (Value cookie))].
  unfold StartSession, Lock, Unlock, onStorage, set_manager, set_mutex,
    set_storageMedia. unfold_M. simpl.
  by rewrite Hcookie, (eqb_nonempty _ Hne), Hun.
Qed.

(** X18. When the randomness source gives fewer than 32 bytes the new
    session is registered under the empty identifier and the cookie written
    has an empty value. StartSession treats such a cookie as no cookie: the
    next call with it does not come back to that session but creates another
    one and writes another cookie. *)
Theorem StartSession_without_randomness (entropy entropy' : list Byte.byte)
    (now now' : Z) (request : list Cookie) (w : world memory_storage.state)
    (m : gmap string memory_storage.ptr) :
  (length entropy < 32)%nat →
  idle w →
  memory_storage.sessions (memory_storage.memory (store_of w)) = Some m →
  cookie_of w request = None →
  ∃ session w1 cookie session' w2,
    StartSession entropy now request w = Returns (Ok session) w1 ∧
    response w1 = response w ++ [cookie] ∧
    Value cookie = EmptyString ∧
    registered (store_of w1) EmptyString = Some session ∧
    StartSession entropy' now' [cookie] w1 = Returns (Ok session') w2 ∧
    session' ≠ session ∧
    length (response w2) = S (length (response w1)).
Proof.
  intros Hshort Hidle Hss Hcookie.
  assert (generateUniqueSessionID entropy = EmptyString) as Hid.
  { unfold generateUniqueSessionID.
    destruct (Nat.ltb_spec (length entropy) 32); [done|lia]. }
  pose proof (StartSession_fresh_run entropy now request w m Hidle Hss) as Hrun.
  rewrite Hid in Hrun.
  match type of Hrun with
  | _ → _ = Returns _ ?w1 =>
      pose proof (StartSession_fresh_run entropy' now' [session_cookie
                    (cookieName (manager w)) EmptyString (maxLifetime (manager w))]
                    w1 (<[EmptyString :=
                            length (memory_storage.heap (store_of w))]> m))
        as Hrun2
  end.
  eexists _, _, _, _, _. split.
  { apply Hrun. intros cookie Hc. by rewrite Hcookie in Hc. }
  split; [reflexivity|]. split; [reflexivity|].
  split; [unfold registered, store_of; simpl; by rewrite lookup_insert_eq|].
  split.
  { apply Hrun2; [done|done|].
    intros cookie. unfold cookie_of, Request_Cookie. simpl.
    rewrite bool_decide_true by done. by intros [= <-]. }
  unfold store_of. simpl. rewrite !length_app. simpl. split; lia.
Qed.
End ManagerMore.

Section ManagerFlows.
Import wsm_backup.

(** X19. EndSession with a non-empty cookie, over any storage media: it
    hands the raw cookie value to DestroySession and ignores the error that
    comes back. When DestroySession returns, EndSession writes exactly one
    cookie (the manager's name, empty value, path "/", HttpOnly, MaxAge -1,
    Expires at the time of the call) and frees the manager's mutex; when it
    panics, the mutex is freed as well and no cookie is written; when it
    blocks, EndSession blocks. *)
Theorem EndSession_with_cookie {SM Sess : Type}
    `{!abstract_definition.StorageMedia SM Sess}
    (now : Z) (request : list Cookie) (w : world SM) (cookie : Cookie) :
  mutex (manager w) = false →
  Request_Cookie request (cookieName (manager w)) = Some cookie →
  Value cookie ≠ EmptyString →
  EndSession now request w =
  match abstract_definition.DestroySession (Value cookie) (storageMedia (manager w)) with
  | Returns _ sm' =>
      Returns tt
        {| manager := {| mutex := false; cookieName := cookieName (manager w);
                         storageMedia := sm';
                         maxLifetime := maxLifetime (manager w) |};
           response := response w ++ [expired_cookie (cookieName (manager w)) now] |}
  | Panics msg sm' =>
      Panics msg
        {| manager := {| mutex := false; cookieName := cookieName (manager w);
                         storageMedia := sm';
                         maxLifetime := maxLifetime (manager w) |};
           response := response w |}
  | Blocks => Blocks
  end.
Proof.
  destruct w as [[held name sm L] resp]. simpl. intros -> Hcookie Hne.
  unfold EndSession, Lock, Unlock, onStorage, set_manager, set_mutex,
    set_storageMedia, SetCookie. unfold_M. simpl.
  rewrite Hcookie, (eqb_nonempty _ Hne).
  simpl.
  by destruct (abstract_definition.DestroySession (Value cookie) sm).
Qed.

Lemma SessionsExpirationRoutine_run (now : Z) (w : world memory_storage.state)
    (s' : memory_storage.state) :
  mutex (manager w) = false →
  memory_storage.TerminateSessionOnExpiration now (maxLifetime (manager w))
    (store_of w) = Returns tt s' →
  SessionsExpirationRoutine now w =
  Returns (maxLifetime (manager w))
    {| manager := {| mutex := false; cookieName := cookieName (manager w);
                     storageMedia := s';
                     maxLifetime := maxLifetime (manager w) |};
       response := response w |}.
Proof.
  destruct w as [[held name sm L] resp]. unfold store_of. simpl.
  intros -> Hrun.
  unfold SessionsExpirationRoutine, Lock, Unlock, onStorage, set_manager,
    set_mutex, set_storageMedia. unfold_M. simpl.
  by rewrite Hrun.
Qed.

Lemma handles_valid_after_InitializeSession (now : Z) (sessionId : string)
    (s s' : memory_storage.state) (session : memory_storage.ptr) :
  handles_valid s →
  memory_storage.InitializeSession now sessionId s = Returns session s' →
  handles_valid s'.
Proof.
  intros Hv (m & _ & Hss & -> & ->)%InitializeSession_Returns k p Hk.
  unfold registered in Hk. simpl in *.
  destruct (decide (k = sessionId)) as [->|Hne].
  - rewrite lookup_insert_eq in Hk. injection Hk as <-.
    by rewrite list_lookup_middle.
  - rewrite lookup_insert_ne in Hk by done.
    destruct (Hv k p) as [o Ho]; [unfold registered; by rewrite Hss|].
    exists o. by apply lookup_app_l_Some.
Qed.

(** X20. The session StartSession creates at time now does not survive a
    run of the expiration routine at any time before now + maxLifetime: the
    routine returns with the manager's mutex free and no cookie written, it
    re-arms the timer with maxLifetime taken as a Duration, and afterwards
    StartSession with the cookie of that session gives SessionNotExist. *)
Theorem routine_removes_new_session (entropy : list Byte.byte) (now now' : Z)
    (request : list Cookie) (w : world memory_storage.state)
    (m : gmap string memory_storage.ptr) :
  (32 ≤ length entropy)%nat →
  idle w →
  handles_valid (store_of w) →
  memory_storage.sessions (memory_storage.memory (store_of w)) = Some m →
  cookie_of w request = None →
  - 2 ^ 63 ≤ now + maxLifetime (manager w) < 2 ^ 63 →
  now' < now + maxLifetime (manager w) →
  ∃ session w1 cookie w2,
    StartSession entropy now request w = Returns (Ok session) w1 ∧
    response w1 = response w ++ [cookie] ∧
    SessionsExpirationRoutine now' w1 = Returns (maxLifetime (manager w)) w2 ∧
    mutex (manager w2) = false ∧
    response w2 = response w1 ∧
    ∀ entropy' now'',
      StartSession entropy' now'' [cookie] w2 = Returns (Err SessionNotExist) w2.
Proof.
  intros Hlen Hidle Hv Hss Hcookie Hrange Hlive.
  pose proof (StartSession_fresh_run entropy now request w m Hidle Hss) as Hrun.
  match type of Hrun with
  | _ → _ = Returns _ ?w1' => set (w1 := w1') in *
  end.
  assert (StartSession entropy now request w
          = Returns (Ok (length (memory_storage.heap (store_of w)))) w1) as Hrun1.
  { apply Hrun. intros cookie Hc. by rewrite Hcookie in Hc. }
  clear Hrun.
  assert (handles_valid (store_of w1)) as Hv1.
  { apply (handles_valid_after_InitializeSession now
             (generateUniqueSessionID entropy) (store_of w)
             (store_of w1) (length (memory_storage.heap (store_of w)))); [done|].
    destruct Hidle as [_ Hmu].
    by apply (InitializeSession_allocated _ _ _ m). }
  destruct (sweep_evicts_live now' (maxLifetime (manager w)) (store_of w1)
              (generateUniqueSessionID entropy)
              (length (memory_storage.heap (store_of w)))
              (fresh_session now (generateUniqueSessionID entropy)))
    as (s2 & Hsweep & Hgone); try done.
  { unfold registered, store_of, w1. simpl. by rewrite lookup_insert_eq. }
  { unfold store_of, w1. simpl. by apply list_lookup_middle. }
  destruct (TerminateSessionOnExpiration_spec now' (maxLifetime (manager w))
              (store_of w1) eq_refl Hv1) as (s2' & Hsweep' & _ & Hmu2 & _).
  rewrite Hsweep in Hsweep'. injection Hsweep' as <-.
  eexists _, w1, _, _. split; [exact Hrun1|]. split; [reflexivity|].
  split; [by apply (SessionsExpirationRoutine_run now' w1 s2)|].
  split; [done|]. split; [done|].
  intros entropy' now''.
  rewrite (StartSession_with_cookie entropy' now'' _ _
             (session_cookie (cookieName (manager w))
                (generateUniqueSessionID entropy) (maxLifetime (manager w)))
             (generateUniqueSessionID entropy)).
  - unfold store_of. simpl. fold (registered s2 (generateUniqueSessionID entropy)).
    by rewrite Hgone.
  - done.
  - unfold cookie_of, Request_Cookie. simpl. by rewrite bool_decide_true.
  - by apply generated_id_escaped_nonempty.
  - apply QueryUnescape_QueryEscape.
Qed.
End ManagerFlows.

Section ConstructionMore.
Import wsm_backup.
Context {SM : Type}.
Variable mapUnicodeLower : string → string.
Variables memoryMedia fileMedia postgresMedia : SM.
Variable sessionStorage : string → SM → option SM.

(** X21. The storage media type is matched without regard to the case of
    ASCII letters. For an ASCII string whose lower-cased form is one of the
    three supported types, NewSessionManager never gives the unsupported
    error: it ends in sessionStorage or returns a manager whose mutex is
    free, whose cookie name and maximum lifetime are the arguments, and
    whose storage media is the one sessionStorage answered. *)
Theorem NewSessionManager_supported (storageMediaType cookieName : string)
    (maxLifetime : Z) :
  strings.isASCII storageMediaType = true →
  strings.lowerASCII storageMediaType ∈ supportedStorageMediaTypes →
  ∃ media,
    supportedStorageMedia memoryMedia fileMedia postgresMedia
      !! strings.lowerASCII storageMediaType = Some media ∧
    NewSessionManager mapUnicodeLower memoryMedia fileMedia postgresMedia
      sessionStorage storageMediaType cookieName maxLifetime
    = match sessionStorage (strings.lowerASCII storageMediaType) media with
      | None => None
      | Some registeredStorage =>
          Some (Ok {| mutex := false; cookieName := cookieName;
                      storageMedia := registeredStorage;
                      maxLifetime := maxLifetime |})
      end.
Proof.
  intros Hascii Hin. unfold NewSessionManager, strings.ToLower. rewrite Hascii.
  unfold supportedStorageMediaTypes in Hin. rewrite !elem_of_cons in Hin.
  destruct Hin as [->|[->|[->|Hin]]]; [| | |by apply elem_of_nil in Hin];
    eexists; (split; [reflexivity|reflexivity]).
Qed.
End ConstructionMore.

Lemma StartSession_new_session_witness :
  ∃ session w1,
    wsm_backup.StartSession zero_entropy 100 [] (world_of allocated_state)
      = Returns (Ok session) w1 ∧
    idle w1 ∧
    wsm_backup.cookieName (wsm_backup.manager w1)
      = wsm_backup.cookieName (wsm_backup.manager (world_of allocated_state)) ∧
    wsm_backup.maxLifetime (wsm_backup.manager w1)
      = wsm_backup.maxLifetime (wsm_backup.manager (world_of allocated_state)) ∧
    wsm_backup.response w1 =
      wsm_backup.response (world_of allocated_state)
      ++ [{| wsm_backup.Name :=
               wsm_backup.cookieName (wsm_backup.manager (world_of allocated_state));
             wsm_backup.Value :=
               net_url.QueryEscape (wsm_backup.generateUniqueSessionID zero_entropy);
             wsm_backup.Path := "/"; wsm_backup.HttpOnly := true;
             wsm_backup.MaxAge :=
               wsm_backup.maxLifetime (wsm_backup.manager (world_of allocated_state));
             wsm_backup.Expires := None |}] ∧
    registered (store_of w1) (wsm_backup.generateUniqueSessionID zero_entropy)
      = Some session ∧
    memory_storage.heap (store_of w1) !! session
      = Some (fresh_session 100 (wsm_backup.generateUniqueSessionID zero_entropy)) ∧
    memory_storage.activeSessions (memory_storage.memory (store_of w1))
      = int64_add (memory_storage.activeSessions
                     (memory_storage.memory (store_of (world_of allocated_state)))) 1.
Proof.
  apply (StartSession_new_session zero_entropy 100 [] (world_of allocated_state) ∅).
  - split; reflexivity.
  - reflexivity.
  - intros cookie Hc. discriminate Hc.
Defined.

Lemma StartSession_malformed_cookie_witness :
  wsm_backup.StartSession zero_entropy 100
    [{| wsm_backup.Name := "sid"; wsm_backup.Value := "abc%3";
        wsm_backup.Path := ""; wsm_backup.HttpOnly := false;
        wsm_backup.MaxAge := 0; wsm_backup.Expires := None |}]
    (world_of (one_session 5))
  = Returns (Err (EscapeError "%3")) (world_of (one_session 5)) ∧
  ∃ fragment, EscapeError "%3" = EscapeError fragment ∧
              (String.length fragment ≤ 3)%nat.
Proof.
  apply (StartSession_malformed_cookie zero_entropy 100 _
           (world_of (one_session 5))
           {| wsm_backup.Name := "sid"; wsm_backup.Value := "abc%3";
              wsm_backup.Path := ""; wsm_backup.HttpOnly := false;
              wsm_backup.MaxAge := 0; wsm_backup.Expires := None |}
           (EscapeError "%3")).
  - reflexivity.
  - reflexivity.
  - simpl. discriminate.
  - reflexivity.
Defined.

Lemma StartSession_without_randomness_witness :
  ∃ session w1 cookie session' w2,
    wsm_backup.StartSession short_entropy 100 [] (world_of allocated_state)
      = Returns (Ok session) w1 ∧
    wsm_backup.response w1
      = wsm_backup.response (world_of allocated_state) ++ [cookie] ∧
    wsm_backup.Value cookie = EmptyString ∧
    registered (store_of w1) EmptyString = Some session ∧
    wsm_backup.StartSession short_entropy 150 [cookie] w1
      = Returns (Ok session') w2 ∧
    session' ≠ session ∧
    length (wsm_backup.response w2) = S (length (wsm_backup.response w1)).
Proof.
  apply (StartSession_without_randomness short_entropy short_entropy 100 150 []
           (world_of allocated_state) ∅).
  - vm_compute. lia.
  - split; reflexivity.
  - reflexivity.
  - reflexivity.
Defined.

Lemma EndSession_with_cookie_witness :
  wsm_backup.EndSession 200 [request_cookie "sid" "abc"] (world_of (one_session 5))
  = Blocks.
Proof.
  refine (EndSession_with_cookie 200 [request_cookie "sid" "abc"]
            (world_of (one_session 5)) (request_cookie "sid" "abc")
            eq_refl eq_refl _).
  simpl. discriminate.
Defined.

Lemma routine_removes_new_session_witness :
  ∃ session w1 cookie w2,
    wsm_backup.StartSession zero_entropy 100 [] (world_of (one_session 5))
      = Returns (Ok session) w1 ∧
    wsm_backup.response w1
      = wsm_backup.response (world_of (one_session 5)) ++ [cookie] ∧
    wsm_backup.SessionsExpirationRoutine 200 w1
      = Returns (wsm_backup.maxLifetime (wsm_backup.manager (world_of (one_session 5)))) w2 ∧
    wsm_backup.mutex (wsm_backup.manager w2) = false ∧
    wsm_backup.response w2 = wsm_backup.response w1 ∧
    ∀ entropy' now'',
      wsm_backup.StartSession entropy' now'' [cookie] w2
      = Returns (Err SessionNotExist) w2.
Proof.
  apply (routine_removes_new_session zero_entropy 100 200 []
           (world_of (one_session 5)) {["a" := 0%nat]}).
  - vm_compute. lia.
  - split; reflexivity.
  - apply (reachable_consistent (one_session 5) (one_session_reachable 5)).
  - reflexivity.
  - reflexivity.
  - simpl. lia.
  - simpl. lia.
Defined.

Lemma NewSessionManager_supported_witness :
  ∃ media,
    wsm_backup.supportedStorageMedia () () () !! strings.lowerASCII "MeMoRy"
      = Some media ∧
    wsm_backup.NewSessionManager (λ s, s) () () () (λ _ sm, Some sm)
      "MeMoRy" "sid" 3600
    = match (λ (_ : string) (sm : ()), Some sm) (strings.lowerASCII "MeMoRy") media with
      | None => None
      | Some registeredStorage =>
          Some (Ok {| wsm_backup.mutex := false; wsm_backup.cookieName := "sid";
                      wsm_backup.storageMedia := registeredStorage;
                      wsm_backup.maxLifetime := 3600 |})
      end.
Proof.
  apply (NewSessionManager_supported (λ s, s) () () () (λ _ sm, Some sm)
           "MeMoRy" "sid" 3600).
  - reflexivity.
  - compute_done.
Defined.

Section ManagerCookies.
Import wsm_backup.

(** X16. The cookie StartSession writes for a new session, presented on a
    later request, leads StartSession back to that very session: the second
    call returns the same handle, writes no cookie and leaves the manager
    and the store, access time included, as they were. *)
Theorem StartSession_cookie_round_trip (entropy : list Byte.byte) (now now' : Z)
    (request : list Cookie) (w : world memory_storage.state)
    (m : gmap string memory_storage.ptr) :
  (32 ≤ length entropy)%nat →
  idle w →
  memory_storage.sessions (memory_storage.memory (store_of w)) = Some m →
  cookie_of w request = None →
  ∃ session w1 cookie,
    StartSession entropy now request w = Returns (Ok session) w1 ∧
    response w1 = response w ++ [cookie] ∧
    ∀ entropy', StartSession entropy' now' [cookie] w1 = Returns (Ok session) w1.
Proof. apply StartSession_again_same_session. Qed.

(** X22. StartSession with a cookie whose value unescapes to a registered
    identifier returns the registered session and changes nothing: no cookie
    is written, and the access time of the session is not refreshed. *)
Theorem StartSession_known_id (entropy : list Byte.byte) (now : Z)
    (request : list Cookie) (w : world memory_storage.state)
    (cookie : Cookie) (sessionId : string) (session : memory_storage.ptr) :
  idle w →
  cookie_of w request = Some cookie →
  Value cookie ≠ EmptyString →
  net_url.QueryUnescape (Value cookie) = Ok sessionId →
  registered (store_of w) sessionId = Some session →
  StartSession entropy now request w = Returns (Ok session) w.
Proof.
  intros Hidle Hcookie Hne Hun Hreg.
  rewrite (StartSession_with_cookie entropy now request w cookie sessionId)
    by done.
  by rewrite Hreg.
Qed.

(** X23. Over a store whose sessions map is nil, as the store registered
    under "memory" is, StartSession for a request without a usable cookie
    panics inside InitializeSession. Both mutexes are free afterwards, no
    cookie has been written, nothing is registered and the counter has been
    incremented. *)
Theorem StartSession_nil_map_panics (entropy : list Byte.byte) (now : Z)
    (request : list Cookie) (w : world memory_storage.state) :
  idle w →
  memory_storage.sessions (memory_storage.memory (store_of w)) = None →
  (∀ cookie, cookie_of w request = Some cookie → Value cookie = EmptyString) →
  ∃ w',
    StartSession entropy now request w = Panics nil_map_write w' ∧
    idle w' ∧
    response w' = response w ∧
    memory_storage.sessions (memory_storage.memory (store_of w')) = None ∧
    memory_storage.activeSessions (memory_storage.memory (store_of w'))
      = int64_add (memory_storage.activeSessions
                     (memory_storage.memory (store_of w))) 1.
Proof.
  destruct w as [[held name sm L] resp].
  unfold idle, cookie_of, store_of. simpl.
  intros [-> Hmu] Hss Hcookie. eexists. split.
  { unfold StartSession, Lock, Unlock, onStorage, set_manager, set_mutex,
      set_storageMedia, SetCookie. unfold_M. simpl.
    destruct (Request_Cookie request name) as [cookie|].
    - rewrite (Hcookie cookie eq_refl). simpl.
      rewrite InitializeSession_nil by done. simpl. reflexivity.
    - rewrite InitializeSession_nil by done. simpl. reflexivity. }
  unfold idle, store_of. simpl. by repeat split.
Qed.
End ManagerCookies.

Lemma StartSession_cookie_round_trip_witness :
  ∃ session w1 cookie,
    wsm_backup.StartSession zero_entropy 100 [] (world_of allocated_state)
      = Returns (Ok session) w1 ∧
    wsm_backup.response w1
      = wsm_backup.response (world_of allocated_state) ++ [cookie] ∧
    ∀ entropy',
      wsm_backup.StartSession entropy' 150 [cookie] w1 = Returns (Ok session) w1.
Proof.
  apply (StartSession_cookie_round_trip zero_entropy 100 150 []
           (world_of allocated_state) ∅).
  - vm_compute. lia.
  - split; reflexivity.
  - reflexivity.
  - reflexivity.
Defined.

Lemma StartSession_known_id_witness :
  wsm_backup.StartSession zero_entropy 100 [request_cookie "sid" "a"]
    (world_of (one_session 5))
  = Returns (Ok 0%nat) (world_of (one_session 5)).
Proof.
  apply (StartSession_known_id zero_entropy 100 [request_cookie "sid" "a"]
           (world_of (one_session 5)) (request_cookie "sid" "a") "a" 0%nat).
  - split; reflexivity.
  - reflexivity.
  - simpl. discriminate.
  - reflexivity.
  - reflexivity.
Defined.

Lemma StartSession_nil_map_panics_witness :
  ∃ w',
    wsm_backup.StartSession zero_entropy 100 [] (world_of zero_state)
      = Panics nil_map_write w' ∧
    idle w' ∧
    wsm_backup.response w' = wsm_backup.response (world_of zero_state) ∧
    memory_storage.sessions (memory_storage.memory (store_of w')) = None ∧
    memory_storage.activeSessions (memory_storage.memory (store_of w'))
      = int64_add (memory_storage.activeSessions
                     (memory_storage.memory (store_of (world_of zero_state)))) 1.
Proof.
  apply (StartSession_nil_map_panics zero_entropy 100 [] (world_of zero_state)).
  - split; reflexivity.
  - reflexivity.
  - intros cookie Hc. discriminate Hc.
Defined.
